(** * goyave: path engine (helper/walk) and date validation rules

    Shallow embedding of [helper/walk/walk.go] (package [walk]) and of the
    date rules of package [validation], with the properties of the
    specification proved over them. *)

From Stdlib Require Import ZArith Zbitwise Lia List Ascii String.
From stdpp Require Import base option list gmap strings.

#[local] Set Warnings "-register-all".

Local Open Scope string_scope.
Local Open Scope Z_scope.
Local Open Scope list_scope.

(** ** Untyped data

    [interface{}] values as a tagged union.  A [time.Time] is represented by
    the instant it denotes (nanoseconds since the Unix epoch, UTC): the code
    only compares instants with [Before], [After] and [Equal].  A
    [map[string]interface{}] is an association list read through [map_get]
    (first binding wins; Go maps have one binding per key).  Every Go slice is
    a [VSlice], whatever its element type. *)

Definition Time := Z.

Inductive Value : Type :=
| VNil
| VBool (b : bool)
| VInt (n : Z)
| VStr (s : string)
| VTime (t : Time)
| VMap (m : list (string * Value))
| VSlice (l : list Value).

Fixpoint map_get (k : string) (m : list (string * Value)) : option Value :=
  match m with
  | [] => None
  | (k', v) :: m' => if String.eqb k k' then Some v else map_get k m'
  end.

(** A Go result pair [(value, error)] of which one side is meaningful. *)
Inductive result (E A : Type) : Type :=
| Ok (a : A)
| Err (e : E).
Arguments Ok {E A} a.
Arguments Err {E A} e.

(** ** Go standard library used by the path scanner

    [utf8.DecodeRune] and [bufio.Scanner] are not code of this repository;
    they are modelled after the Go standard library so that the scanner's
    split function can be run the way [Parse] runs it. *)

Module utf8.

Definition RuneError : Z := 65533.

Definition byteval (c : ascii) : Z := Z.of_N (N_of_ascii c).

Definition byteAt (p : list ascii) (i : nat) : Z :=
  match p !! i with
  | Some c => byteval c
  | None => 0
  end.

(** Size of the encoding announced by a leading byte in [0xC2, 0xF4]. *)
Definition seqSize (p0 : Z) : nat :=
  if p0 <? 224 then 2%nat else if p0 <? 240 then 3%nat else 4%nat.

(** Accepted range of the second byte (the [acceptRanges] table). *)
Definition acceptRange (p0 : Z) : Z * Z :=
  if p0 =? 224 then (160, 191)
  else if p0 =? 237 then (128, 159)
  else if p0 =? 240 then (144, 191)
  else if p0 =? 244 then (128, 143)
  else (128, 191).

Definition continuation (b : Z) : bool := (128 <=? b) && (b <=? 191).

(** [DecodeRune p]: the first rune of [p] and its width in bytes. *)
Definition DecodeRune (p : list ascii) : Z * nat :=
  match p with
  | [] => (RuneError, 0%nat)
  | c0 :: _ =>
      let p0 := byteval c0 in
      if p0 <? 128 then (p0, 1%nat)
      else if (p0 <? 194) || (244 <? p0) then (RuneError, 1%nat)
      else
        let sz := seqSize p0 in
        let (lo, hi) := acceptRange p0 in
        if (List.length p <? sz)%nat then (RuneError, 1%nat)
        else
          let b1 := byteAt p 1 in
          if (b1 <? lo) || (hi <? b1) then (RuneError, 1%nat)
          else if (sz <=? 2)%nat
          then (Z.lor (Z.shiftl (Z.land p0 31) 6) (Z.land b1 63), 2%nat)
          else
            let b2 := byteAt p 2 in
            if negb (continuation b2) then (RuneError, 1%nat)
            else if (sz <=? 3)%nat
            then (Z.lor (Z.lor (Z.shiftl (Z.land p0 15) 12)
                               (Z.shiftl (Z.land b1 63) 6))
                        (Z.land b2 63), 3%nat)
            else
              let b3 := byteAt p 3 in
              if negb (continuation b3) then (RuneError, 1%nat)
              else (Z.lor (Z.lor (Z.lor (Z.shiftl (Z.land p0 7) 18)
                                        (Z.shiftl (Z.land b1 63) 12))
                                 (Z.shiftl (Z.land b2 63) 6))
                          (Z.land b3 63), 4%nat)
  end.

End utf8.

Module bufio.

Definition startBufSize : nat := Z.to_nat 4096.
Definition MaxScanTokenSize : nat := Z.to_nat 65536.
Arguments startBufSize : simpl never.
Arguments MaxScanTokenSize : simpl never.

(** What a split function returns: [(advance, token, nil)] with a token,
    [(0, nil, nil)] to ask for more data, or an error. *)
Inductive SplitResult (E : Type) : Type :=
| Token (advance : nat) (token : list ascii)
| More
| Fail (e : E).
Arguments Token {E} advance token.
Arguments More {E}.
Arguments Fail {E} e.

Inductive ScanError (E : Type) : Type :=
| EOF
| ErrTooLong
| ErrAdvanceTooFar
| SplitError (e : E).
Arguments EOF {E}.
Arguments ErrTooLong {E}.
Arguments ErrAdvanceTooFar {E}.
Arguments SplitError {E} e.

(** A [Scanner] over a [strings.Reader]: [rd] is the input not read yet,
    [pending] is [buf[start:end]], [bufLen] is [len(buf)]. *)
Record Scanner (E : Type) : Type := MkScanner {
  rd : list ascii;
  bufLen : nat;
  start : nat;
  pending : list ascii;
  err : option (ScanError E)
}.
Arguments MkScanner {E} rd bufLen start pending err.
Arguments rd {E} s.
Arguments bufLen {E} s.
Arguments start {E} s.
Arguments pending {E} s.
Arguments err {E} s.

Section Scanner.
Context {E : Type}.
(** The split function; [None] when its own loop bound was too small. *)
Variable split : list ascii -> bool -> option (SplitResult E).

Definition NewScanner (input : list ascii) : Scanner E :=
  MkScanner input 0 0 [] None.

Definition setErr (s : Scanner E) (e : ScanError E) : Scanner E :=
  match err s with
  | None | Some EOF => MkScanner (rd s) (bufLen s) (start s) (pending s) (Some e)
  | Some _ => s
  end.

(** The part of [Scan] after the split attempt, up to and including the
    read: shut down at end of input, shift, grow, read.  [inl] returns
    [false] from [Scan], [inr] goes round the loop again. *)
Definition fill (s : Scanner E) : Scanner E + Scanner E :=
  match err s with
  | Some _ => inl (MkScanner (rd s) (bufLen s) 0 [] (err s))
  | None =>
      let end_ := (start s + List.length (pending s))%nat in
      let start1 :=
        if (0 <? start s)%nat && ((end_ =? bufLen s)%nat || (bufLen s / 2 <? start s)%nat)
        then 0%nat else start s in
      let end1 := (start1 + List.length (pending s))%nat in
      if (end1 =? bufLen s)%nat then
        if (MaxScanTokenSize <=? bufLen s)%nat
        then inl (setErr (MkScanner (rd s) (bufLen s) start1 (pending s) None) ErrTooLong)
        else
          let newSize := if (bufLen s * 2 =? 0)%nat then startBufSize else (bufLen s * 2)%nat in
          let newSize := Nat.min newSize MaxScanTokenSize in
          let n := Nat.min (List.length (rd s)) (newSize - List.length (pending s)) in
          match rd s with
          | [] => inr (MkScanner [] newSize 0 (pending s) (Some EOF))
          | _ => inr (MkScanner (drop n (rd s)) newSize 0 (pending s ++ take n (rd s)) None)
          end
      else
        let n := Nat.min (List.length (rd s)) (bufLen s - end1) in
        match rd s with
        | [] => inr (MkScanner [] (bufLen s) start1 (pending s) (Some EOF))
        | _ => inr (MkScanner (drop n (rd s)) (bufLen s) start1 (pending s ++ take n (rd s)) None)
        end
  end.

(** [Scan]: the new scanner state and the token, if one was produced
    ([Scan] returned [true]).  The outer [option] is [None] when [fuel] loop
    rounds were not enough.  The count of empty tokens at the end of the
    input is left out: it only matters for a split function that returns a
    token without advancing. *)
Fixpoint Scan (fuel : nat) (s : Scanner E) : option (Scanner E * option (list ascii)) :=
  match fuel with
  | O => None
  | S fuel' =>
      let attempt :=
        if (0 <? List.length (pending s))%nat || bool_decide (is_Some (err s))
        then split (pending s) (bool_decide (is_Some (err s)))
        else Some More in
      match attempt with
      | None => None
      | Some (Fail e) => Some (setErr s (SplitError e), None)
      | Some (Token advance token) =>
          if (List.length (pending s) <? advance)%nat
          then Some (setErr s ErrAdvanceTooFar, None)
          else Some (MkScanner (rd s) (bufLen s) (start s + advance)
                               (drop advance (pending s)) (err s), Some token)
      | Some More =>
          match fill s with
          | inl s' => Some (s', None)
          | inr s' => Scan fuel' s'
          end
      end
  end.

(** [Err]: the first error met, [io.EOF] excepted. *)
Definition Err (s : Scanner E) : option (ScanError E) :=
  match err s with
  | Some EOF => None
  | e => e
  end.

End Scanner.
End bufio.

Module walk.

Inductive PathType := PathTypeElement | PathTypeArray | PathTypeObject.

Definition PathType_eqb (a b : PathType) : bool :=
  match a, b with
  | PathTypeElement, PathTypeElement
  | PathTypeArray, PathTypeArray
  | PathTypeObject, PathTypeObject => true
  | _, _ => false
  end.

(** [Path]: one step of the chain; [Next] and [Index] are Go pointers. *)
Inductive Path : Type :=
  MkPath (Next : option Path) (Index : option Z) (Name : string) (Type_ : PathType).

Definition Next (p : Path) : option Path := let (n, _, _, _) := p in n.
Definition Index (p : Path) : option Z := let (_, i, _, _) := p in i.
Definition Name (p : Path) : string := let (_, _, n, _) := p in n.
Definition Type_ (p : Path) : PathType := let (_, _, _, t) := p in t.

Record Context := MkContext {
  ctxValue : Value;
  ctxParent : Value;
  ctxPath : Path;
  ctxName : string;
  ctxIndex : Z;
  ctxNotFound : bool
}.

Definition newNotFoundContext (parent : Value) (path : Path) (name : string) (index : Z) : Context :=
  {| ctxValue := VNil; ctxParent := parent; ctxPath := path; ctxName := name;
     ctxIndex := index; ctxNotFound := true |}.

(** [HasArray]: the loop over [step] is the recursion on the chain. *)
Fixpoint HasArray (p : Path) : bool :=
  match p with
  | MkPath next _ _ ty =>
      if PathType_eqb ty PathTypeArray then true
      else match next with
           | Some step => HasArray step
           | None => false
           end
  end.

Fixpoint LastParent (p : Path) : option Path :=
  match p with
  | MkPath (Some nx) _ _ _ =>
      if PathType_eqb (Type_ nx) PathTypeElement then Some p else LastParent nx
  | MkPath None _ _ _ => None
  end.

Fixpoint Tail (p : Path) : Path :=
  match p with
  | MkPath (Some step) _ _ _ => Tail step
  | MkPath None _ _ _ => p
  end.

Fixpoint Clone (p : Path) : Path :=
  match p with
  | MkPath next idx name ty =>
      MkPath (match next with Some nx => Some (Clone nx) | None => None end) idx name ty
  end.

(** Assignment through a pointer to the last step of a chain.  In [walk] the
    argument [lastPathElement] always points to the last step of [path]
    ([Walk] passes the same one-step chain twice, and every recursive call
    passes the step it has just linked behind the previous last one), so the
    writes [lastPathElement.Index = ..] and [lastPathElement.Next = ..] are
    writes to the tail of [path]. *)
Fixpoint setTail (f : Path -> Path) (p : Path) : Path :=
  match p with
  | MkPath (Some nx) idx name ty => MkPath (Some (setTail f nx)) idx name ty
  | MkPath None _ _ _ => f p
  end.

(** [t.Next = &Path{Name: nx.Name, Type: nx.Type}] *)
Definition linkNext (nx : Path) (t : Path) : Path :=
  MkPath (Some (MkPath None None (Name nx) (Type_ nx))) (Index t) (Name t) (Type_ t).

(** [t.Index = idx; t.Next = &Path{Name: nx.Name, Type: nx.Type}] *)
Definition linkIndexNext (idx : option Z) (nx : Path) (t : Path) : Path :=
  MkPath (Some (MkPath None None (Name nx) (Type_ nx))) idx (Name t) (Type_ t).

(** The [for i := 0; i < length; i++] loop of the array case: [body] is one
    iteration, the callbacks of the iterations are made in order. *)
Fixpoint forEach (body : Value -> Z -> option (list Context))
    (l : list Value) (i : Z) : option (list Context) :=
  match l with
  | [] => Some []
  | value :: l' =>
      match body value i with
      | None => None
      | Some cs =>
          match forEach body l' (i + 1) with
          | None => None
          | Some cs' => Some (cs ++ cs')
          end
      end
  end.

(** [walk]: the callback [f] is modelled by the list of contexts it is called
    with, in call order.  [None] is a run-time panic (nil [Next] of a step
    that is not an element, or a negative fixed index passed to
    [reflect.Value.Index]).  A context is handed to [f] with the chain [path]
    as it is at the time of the call; no chain is written to after it was
    handed to [f] (the fan-out loop writes to a clone per element). *)
Fixpoint walk (p : Path) (currentElement parent : Value) (index : Z)
    (path : Path) {struct p} : option (list Context) :=
  match p with
  | MkPath next pindex name ty =>
    let looked : Context + (Value * Value * Z) :=
      if String.eqb name "" then inr (currentElement, parent, index)
      else
        match currentElement with
        | VMap ce =>
            match map_get name ce with
            | Some element => inr (element, currentElement, -1)
            | None => inl (newNotFoundContext currentElement path name (-1))
            end
        | _ => inl (newNotFoundContext currentElement path name index)
        end in
    match looked with
    | inl c => Some [c]
    | inr (element, parent, index) =>
      match ty with
      | PathTypeElement =>
          Some [ {| ctxValue := element; ctxParent := parent; ctxPath := path;
                    ctxName := name; ctxIndex := index; ctxNotFound := false |} ]
      | PathTypeArray =>
          match element with
          | VSlice list =>
              match next with
              | None => None
              | Some nx =>
                  let length := Z.of_nat (List.length list) in
                  if negb (PathType_eqb (Type_ nx) PathTypeElement) && (length =? 0)
                  then Some [newNotFoundContext element path "" index]
                  else
                    match pindex with
                    | Some i =>
                        if i >=? length
                        then Some [newNotFoundContext element path "" i]
                        else if i <? 0 then None
                        else
                          match list !! Z.to_nat i with
                          | Some value =>
                              walk nx value element i
                                   (setTail (linkIndexNext pindex nx) path)
                          | None => None
                          end
                    | None =>
                        forEach
                          (fun value i =>
                             walk nx value element i
                                  (setTail (linkIndexNext (Some i) nx) (Clone path)))
                          list 0
                    end
              end
          | _ => Some [newNotFoundContext parent path name index]
          end
      | PathTypeObject =>
          match next with
          | None => None
          | Some nx => walk nx element parent index (setTail (linkNext nx) path)
          end
      end
    end
  end.

Definition Walk (p : Path) (currentElement : Value) : option (list Context) :=
  let path := MkPath None None (Name p) (Type_ p) in
  walk p currentElement VNil (-1) path.

(** *** Parsing *)

(** [fmt.Errorf("Illegal syntax: %q", path)]: the error carries the path. *)
Inductive SyntaxError := IllegalSyntax (path : string).

Definition ParseError := bufio.ScanError SyntaxError.

Definition dot : Z := 46.
Definition lbracket : Z := 91.
Definition rbracket : Z := 93.

(** As in the source, [true] means that [r] followed by [next] is illegal. *)
Definition isValidSyntax (r next : Z) : bool :=
  ((r =? dot) && (next =? dot))
  || ((r =? lbracket) && negb (next =? rbracket))
  || ((r =? dot) && ((next =? rbracket) || (next =? lbracket)))
  || (negb (r =? dot) && negb (r =? lbracket) && (next =? rbracket))
  || ((r =? rbracket) && negb (next =? lbracket) && negb (next =? dot)).

Inductive LoopExit :=
| Return (res : bufio.SplitResult SyntaxError)
| Fallthrough.

(** The [for width, i := 0, 0; i < len(data); i += width] loop of the split
    function, from position [i]; [fuel] bounds the number of rounds. *)
Fixpoint splitLoop (fuel : nat) (path : string) (data : list ascii) (i : nat)
    : option LoopExit :=
  if (i <? List.length data)%nat then
    match fuel with
    | O => None
    | S fuel' =>
        let (r, width) := utf8.DecodeRune (drop i data) in
        if (i + width <? List.length data)%nat then
          let (next, _) := utf8.DecodeRune (drop (i + width) data) in
          if isValidSyntax r next then
            Some (Return (bufio.Fail (IllegalSyntax path)))
          else if (r =? dot) && (i =? 0)%nat then
            Some (Return (bufio.Token (i + width) (take (i + width) data)))
          else if (next =? dot) || (next =? lbracket) then
            Some (Return (bufio.Token (i + width) (take (i + width) data)))
          else splitLoop fuel' path data (i + width)
        else if (r =? dot) || (r =? lbracket) then
          Some (Return (bufio.Fail (IllegalSyntax path)))
        else splitLoop fuel' path data (i + width)
    end
  else Some Fallthrough.

(** The split function that [createPathScanner] installs. *)
Definition split (path : string) (data : list ascii) (atEOF : bool)
    : option (bufio.SplitResult SyntaxError) :=
  if (String.length path =? 0)%nat
     || (utf8.byteAt (list_ascii_of_string path) 0 =? dot)
  then Some (bufio.Fail (IllegalSyntax path))
  else
    match splitLoop (List.length data) path data 0 with
    | None => None
    | Some (Return res) => Some res
    | Some Fallthrough =>
        if atEOF && (0 <? List.length data)%nat
        then Some (bufio.Token (List.length data) data)
        else Some bufio.More
    end.

Definition createPathScanner (path : string) : bufio.Scanner SyntaxError :=
  bufio.NewScanner (list_ascii_of_string path).

(** The body of the token loop of [Parse].  The cursor [path] of the source
    is always the last step of [rootPath]: it starts as the root and moves to
    the step it has just appended.  Each case gives the chain that replaces
    the cursor step ([setTail]). *)
Definition parseToken (t : string) (path : Path) : Path :=
  match path with
  | MkPath next idx name ty =>
      if String.eqb t "[]" then
        if PathType_eqb ty PathTypeArray
        then MkPath (Some (MkPath None None "" PathTypeArray)) idx name ty
        else MkPath next idx name PathTypeArray
      else if String.eqb t "." then
        if PathType_eqb ty PathTypeArray
        then MkPath (Some (MkPath (Some (MkPath None None "" PathTypeElement))
                                  None "" PathTypeObject)) idx name ty
        else MkPath (Some (MkPath None None "" PathTypeElement)) idx name PathTypeObject
      else MkPath next idx t ty
  end.

(** [for scanner.Scan() { ... }], at most [fuel] times.  A call of [Scan]
    reads at least one byte in each round of its loop but the last two, so
    [len(p) + 2] rounds are enough for it (see [Scan_total]). *)
Fixpoint parseLoop (fuel : nat) (p : string) (scanner : bufio.Scanner SyntaxError)
    (rootPath : Path) : option (bufio.Scanner SyntaxError * Path) :=
  match fuel with
  | O => None
  | S fuel' =>
      match bufio.Scan (split p) (S (S (String.length p))) scanner with
      | None => None
      | Some (scanner', Some t) =>
          parseLoop fuel' p scanner'
                    (setTail (parseToken (string_of_list_ascii t)) rootPath)
      | Some (scanner', None) => Some (scanner', rootPath)
      end
  end.

(** The trailing element appended when the last step is not one. *)
Definition closePath (path : Path) : Path :=
  match path with
  | MkPath next idx name ty =>
      if PathType_eqb ty PathTypeElement then path
      else MkPath (Some (MkPath None None "" PathTypeElement)) idx name ty
  end.

(** [Parse] with [fuel] rounds of the token loop; [None] when they were not
    enough. *)
Definition ParseN (fuel : nat) (p : string) : option (result ParseError Path) :=
  match parseLoop fuel p (createPathScanner p) (MkPath None None "" PathTypeElement) with
  | None => None
  | Some (scanner, rootPath) =>
      match bufio.Err scanner with
      | Some e => Some (Err e)
      | None => Some (Ok (setTail closePath rootPath))
      end
  end.

(** A token takes at least one byte, so the loop makes at most
    [len(p) + 1] calls of [Scan] (see [Parse_total]). *)
Definition Parse (p : string) : option (result ParseError Path) :=
  ParseN (S (String.length p)) p.

(** The kinds of the steps of a chain, in order. *)
Fixpoint kinds (p : Path) : list PathType :=
  match p with
  | MkPath next _ _ ty =>
      ty :: match next with Some nx => kinds nx | None => [] end
  end.

End walk.

(** ** An instance of [time.Parse]

    The rules are stated for every behaviour of [time.Parse]; to run them on
    concrete forms, [time.Parse] is modelled after the Go standard library
    for the two layouts that the rules use themselves, the date layout
    [2006-01-02] and the date-time layout [2006-01-02T15:04:05].  Instants
    are in nanoseconds since the Unix epoch, in UTC. *)

Module time.

Import utf8.

Definition isDigit (s : list ascii) (i : nat) : bool :=
  match s !! i with
  | Some c => (48 <=? byteval c) && (byteval c <=? 57)
  | None => false
  end.

Definition digit (s : list ascii) (i : nat) : Z := byteAt s i - 48.

(** [getnum(s, fixed)]: one or two digits, exactly two when [fixed]. *)
Definition getnum (s : list ascii) (fixed : bool) : option (Z * list ascii) :=
  if negb (isDigit s 0) then None
  else if negb (isDigit s 1) then
    if fixed then None else Some (digit s 0, drop 1 s)
  else Some (digit s 0 * 10 + digit s 1, drop 2 s).

(** The four-digit year of the chunk [2006]. *)
Definition getyear (s : list ascii) : option (Z * list ascii) :=
  if (List.length s <? 4)%nat then None
  else if isDigit s 0 && isDigit s 1 && isDigit s 2 && isDigit s 3
  then Some (((digit s 0 * 10 + digit s 1) * 10 + digit s 2) * 10 + digit s 3, drop 4 s)
  else None.

(** A literal byte of the layout. *)
Definition literal (c : Z) (s : list ascii) : option (list ascii) :=
  match s with
  | c' :: s' => if byteval c' =? c then Some s' else None
  | [] => None
  end.

Definition isLeap (year : Z) : bool :=
  (year mod 4 =? 0) && (negb (year mod 100 =? 0) || (year mod 400 =? 0)).

Definition daysIn (month year : Z) : Z :=
  if month =? 2 then (if isLeap year then 29 else 28)
  else if (month =? 4) || (month =? 6) || (month =? 9) || (month =? 11) then 30
  else 31.

(** Days from 1970-01-01 to the given civil date (proleptic Gregorian). *)
Definition daysSinceEpoch (year month day : Z) : Z :=
  let y := if month <=? 2 then year - 1 else year in
  let era := y / 400 in
  let yoe := y - era * 400 in
  let mp := if month <=? 2 then month + 9 else month - 3 in
  let doy := (153 * mp + 2) / 5 + day - 1 in
  let doe := yoe * 365 + yoe / 4 - yoe / 100 + doy in
  era * 146097 + doe - 719468.

Definition Date (year month day hour min sec nsec : Z) : Time :=
  ((daysSinceEpoch year month day * 24 + hour) * 60 + min) * 60 * 1000000000
  + sec * 1000000000 + nsec.

Definition parseDateOnly (value : list ascii) : option Time :=
  '(year, value) ← getyear value;
  value ← literal 45 value;
  '(month, value) ← getnum value true;
  if (month <=? 0) || (12 <? month) then None else
  value ← literal 45 value;
  '(day, value) ← getnum value true;
  if (0 <? List.length value)%nat then None
  else if (day <? 1) || (daysIn month year <? day) then None
  else Some (Date year month day 0 0 0 0).

Fixpoint digits (s : list ascii) : nat :=
  match s with
  | c :: s' => if (48 <=? byteval c) && (byteval c <=? 57) then S (digits s') else 0%nat
  | [] => 0%nat
  end.

Definition atoi (s : list ascii) : Z :=
  fold_left (fun n c => n * 10 + (byteval c - 48)) s 0.

Definition commaOrPeriod (s : list ascii) : bool :=
  (byteAt s 0 =? 46) || (byteAt s 0 =? 44).

(** [parseNanoseconds(value, nbytes)] on a separator followed by digits. *)
Definition parseNanoseconds (value : list ascii) (nbytes : nat) : Z :=
  let nbytes := Nat.min nbytes 10 in
  atoi (drop 1 (take nbytes value)) * 10 ^ Z.of_nat (10 - nbytes).

(** A fractional second in the input is read after the seconds even though
    the layout has none. *)
Definition fraction (value : list ascii) : Z * list ascii :=
  if (2 <=? List.length value)%nat && commaOrPeriod value && isDigit value 1
  then
    let n := (2 + digits (drop 2 value))%nat in
    (parseNanoseconds value n, drop n value)
  else (0, value).

Definition parseDateTime (value : list ascii) : option Time :=
  '(year, value) ← getyear value;
  value ← literal 45 value;
  '(month, value) ← getnum value true;
  if (month <=? 0) || (12 <? month) then None else
  value ← literal 45 value;
  '(day, value) ← getnum value true;
  value ← literal 84 value;
  '(hour, value) ← getnum value false;
  if 24 <=? hour then None else
  value ← literal 58 value;
  '(min, value) ← getnum value true;
  if 60 <=? min then None else
  value ← literal 58 value;
  '(sec, value) ← getnum value true;
  if 60 <=? sec then None else
  let '(nsec, value) := fraction value in
  if (0 <? List.length value)%nat then None
  else if (day <? 1) || (daysIn month year <? day) then None
  else Some (Date year month day hour min sec nsec).

(** [time.Parse] on the two layouts.  Any other layout is outside this
    instance (it answers [None] there); it is only run on these two. *)
Definition Parse (layout value : string) : option Time :=
  if String.eqb layout "2006-01-02" then parseDateOnly (list_ascii_of_string value)
  else if String.eqb layout "2006-01-02T15:04:05" then parseDateTime (list_ascii_of_string value)
  else None.

End time.

(** ** Date rules (package validation) *)

Module validation.

(** Errors of the date helpers: the [*time.ParseError] of [time.Parse], or an
    error made with [fmt.Errorf]. *)
Inductive DateError :=
| TimeParseError (layout value : string)
| Errorf (msg : string).

(** What a panic carries. *)
Inductive PanicValue :=
| PanicError (e : DateError)
| PanicParameters (rule : string) (count : nat)
| PanicIndexOutOfRange.

(** A call either returns or panics. *)
Inductive outcome (A : Type) : Type :=
| Returns (a : A)
| Panics (v : PanicValue).
Arguments Returns {A} a.
Arguments Panics {A} v.

#[export] Instance outcome_ret : MRet outcome := @Returns.

#[export] Instance outcome_bind : MBind outcome := fun A B k m =>
  match m with
  | Returns a => k a
  | Panics v => Panics v
  end.

(** The form: field name to value, updated in place by the rules. *)
Abbreviation Form := (gmap string Value).

(** [dates[i]] *)
Definition at_ (dates : list Time) (i : nat) : outcome Time :=
  match dates !! i with
  | Some d => Returns d
  | None => Panics PanicIndexOutOfRange
  end.

Definition Before (t u : Time) : bool := t <? u.
Definition After (t u : Time) : bool := u <? t.
Definition Equal (t u : Time) : bool := t =? u.

Section Rules.

(** [time.Parse layout value] of the Go standard library: the parsed instant,
    or [None] for its error. *)
Variable time_Parse : string -> string -> option Time.

(** [requireParametersCount rule parameters count] is called first by every
    comparison rule, for its effect only: it returns nothing, so all it can do
    to its caller is return or panic.  Its definition is not among the source
    files; the rules are stated for every such function, and
    [requireExactly] below is the one the specification describes. *)
Variable requireParametersCount : string -> list string -> nat -> outcome unit.

Definition parseDate (date : Value) (format : string) : result DateError Time :=
  match date with
  | VStr str =>
      match time_Parse format str with
      | Some t => Ok t
      | None => Err (TimeParseError format str)
      end
  | _ => Err (Errorf "Date is not a string so cannot be parsed")
  end.

(** The [for _, param := range parameters] loop of [getDates]: the dates
    collected so far are [dates]; the result is the pair [(dates, err)] that
    [getDates] returns, or the panic on a literal that does not parse. *)
Fixpoint getDatesLoop (parameters : list string) (form : Form)
    (dates : list Time) : outcome (list Time * option DateError) :=
  match parameters with
  | [] => Returns (dates, None)
  | param :: parameters' =>
      match form !! param with
      | Some other =>
          match other with
          | VTime otherDate => getDatesLoop parameters' form (dates ++ [otherDate])
          | _ =>
              match parseDate other "2006-01-02" with
              | Ok t => getDatesLoop parameters' form (dates ++ [t])
              | Err _ => Returns (dates, Some (Errorf "Cannot parse date in other field"))
              end
          end
      | None =>
          match parseDate (VStr param) "2006-01-02T15:04:05" with
          | Ok t => getDatesLoop parameters' form (dates ++ [t])
          | Err e => Panics (PanicError e)
          end
      end
  end.

Definition getDates (value : Value) (parameters : list string) (form : Form)
    : outcome (list Time * option DateError) :=
  match value with
  | VTime date => getDatesLoop parameters form [date]
  | _ => Returns ([], Some (Errorf "Value is not a date"))
  end.

(** [validateDate] returns its verdict and the form as it leaves it.
    [format] is [parameters[0]] after the default layout has been appended to
    an empty parameter list. *)
Definition validateDate (field : string) (value : Value) (parameters : list string)
    (form : Form) : bool * Form :=
  let format :=
    match parameters with
    | [] => "2006-01-02"
    | format :: _ => format
    end in
  match parseDate value format with
  | Ok t => (true, <[field := VTime t]> form)
  | Err _ => (false, form)
  end.

(** [err == nil && cmp(dates)]: the comparison is evaluated only when there
    is no error. *)
Definition whenNoError (r : list Time * option DateError)
    (cmp : list Time -> outcome bool) : outcome bool :=
  match r with
  | (dates, None) => cmp dates
  | (_, Some _) => Returns false
  end.

Definition validateBefore (field : string) (value : Value) (parameters : list string)
    (form : Form) : outcome bool :=
  _ ← requireParametersCount "before" parameters 1;
  r ← getDates value parameters form;
  whenNoError r (fun dates =>
    d0 ← at_ dates 0; d1 ← at_ dates 1; Returns (Before d0 d1)).

Definition validateBeforeEqual (field : string) (value : Value) (parameters : list string)
    (form : Form) : outcome bool :=
  _ ← requireParametersCount "before_equal" parameters 1;
  r ← getDates value parameters form;
  whenNoError r (fun dates =>
    d0 ← at_ dates 0; d1 ← at_ dates 1;
    Returns (Before d0 d1 || Equal d0 d1)).

Definition validateAfter (field : string) (value : Value) (parameters : list string)
    (form : Form) : outcome bool :=
  _ ← requireParametersCount "after" parameters 1;
  r ← getDates value parameters form;
  whenNoError r (fun dates =>
    d0 ← at_ dates 0; d1 ← at_ dates 1; Returns (After d0 d1)).

Definition validateAfterEqual (field : string) (value : Value) (parameters : list string)
    (form : Form) : outcome bool :=
  _ ← requireParametersCount "after_equal" parameters 1;
  r ← getDates value parameters form;
  whenNoError r (fun dates =>
    d0 ← at_ dates 0; d1 ← at_ dates 1;
    Returns (After d0 d1 || Equal d0 d1)).

Definition validateDateEquals (field : string) (value : Value) (parameters : list string)
    (form : Form) : outcome bool :=
  _ ← requireParametersCount "date_equals" parameters 1;
  r ← getDates value parameters form;
  whenNoError r (fun dates =>
    d0 ← at_ dates 0; d1 ← at_ dates 1; Returns (Equal d0 d1)).

Definition validateDateBetween (field : string) (value : Value) (parameters : list string)
    (form : Form) : outcome bool :=
  _ ← requireParametersCount "date_between" parameters 2;
  r ← getDates value parameters form;
  whenNoError r (fun dates =>
    d0 ← at_ dates 0; d1 ← at_ dates 1;
    if After d0 d1 || Equal d0 d1
    then d2 ← at_ dates 2; Returns (Before d0 d2 || Equal d0 d2)
    else Returns false).

End Rules.

(** Modelled from the spec: [requireParametersCount], which every comparison
    rule calls first but whose definition is not among the source files.
    The specification (4.2, parameter-count contract) says that [before],
    [before_equal], [after], [after_equal] and [date_equals] require exactly
    one parameter and [date_between] exactly two, and that a violation halts
    the program. *)
Definition requireExactly (rule : string) (parameters : list string)
    (count : nat) : outcome unit :=
  if (List.length parameters =? count)%nat then Returns tt
  else Panics (PanicParameters rule count).

(** The six comparison rules, by the name they are declared with. *)
Inductive DateRule :=
| before | before_equal | after | after_equal | date_equals | date_between.

Definition ruleName (r : DateRule) : string :=
  match r with
  | before => "before"
  | before_equal => "before_equal"
  | after => "after"
  | after_equal => "after_equal"
  | date_equals => "date_equals"
  | date_between => "date_between"
  end.

Definition requiredParameters (r : DateRule) : nat :=
  match r with
  | date_between => 2%nat
  | _ => 1%nat
  end.

Definition validateRule (time_Parse : string -> string -> option Time)
    (requireParametersCount : string -> list string -> nat -> outcome unit)
    (r : DateRule) : string -> Value -> list string -> Form -> outcome bool :=
  match r with
  | before => validateBefore time_Parse requireParametersCount
  | before_equal => validateBeforeEqual time_Parse requireParametersCount
  | after => validateAfter time_Parse requireParametersCount
  | after_equal => validateAfterEqual time_Parse requireParametersCount
  | date_equals => validateDateEquals time_Parse requireParametersCount
  | date_between => validateDateBetween time_Parse requireParametersCount
  end.

End validation.

(** * Vocabulary of the properties *)

Import utf8.
Import walk.
Import validation.

(** The invariant of the chain: a step with a successor is not an element,
    and the step without successor is an element. *)
Fixpoint wellFormed (p : Path) : bool :=
  match p with
  | MkPath (Some nx) _ _ ty => negb (PathType_eqb ty PathTypeElement) && wellFormed nx
  | MkPath None _ _ ty => PathType_eqb ty PathTypeElement
  end.

(** The steps of a chain, each with the chain that follows it. *)
Fixpoint steps (p : Path) : list Path :=
  match p with
  | MkPath (Some nx) _ _ _ => p :: steps nx
  | MkPath None _ _ _ => [p]
  end.

(** What the specification asks of one step: a step that is not an element
    has a successor, an element step has none. *)
Definition stepInvariant (s : Path) : Prop :=
  (Type_ s <> PathTypeElement -> is_Some (Next s))
  /\ (Type_ s = PathTypeElement -> Next s = None).

(** While [Parse] builds the chain, only the last step may lack what the
    invariant asks for. *)
Fixpoint building (p : Path) : bool :=
  match p with
  | MkPath (Some nx) _ _ ty => negb (PathType_eqb ty PathTypeElement) && building nx
  | MkPath None _ _ _ => true
  end.

(** What the steps of a chain without array step resolve to in [e], in the
    words of the specification: a named step looks its name up in the current
    mapping, an element step yields the value reached, an object step passes
    it on to the next step. *)
Fixpoint resolve (p : Path) (e : Value) : option Value :=
  match p with
  | MkPath next _ name ty =>
      let found :=
        if String.eqb name "" then Some e
        else match e with
             | VMap m => map_get name m
             | _ => None
             end in
      match found with
      | None => None
      | Some e' =>
          match ty with
          | PathTypeElement => Some e'
          | PathTypeObject =>
              match next with
              | Some nx => resolve nx e'
              | None => None
              end
          | PathTypeArray => None
          end
      end
  end.

(** A context that carries the value the chain resolves to, or is a
    not-found context when the chain does not resolve. *)
Definition carries (c : Context) (r : option Value) : Prop :=
  match r with
  | Some v => ctxValue c = v /\ ctxNotFound c = false
  | None => ctxValue c = VNil /\ ctxNotFound c = true
  end.

(** The data and the chain of the specification's example: [list[].x] over
    [{"list": [{"x": 1}, {"x": 2}, {"x": 3}]}]. *)
Definition listOfX : list Value :=
  [VMap [("x", VInt 1)]; VMap [("x", VInt 2)]; VMap [("x", VInt 3)]].

Definition listOfXData : list (string * Value) := [("list", VSlice listOfX)].

Definition dotX : Path :=
  MkPath (Some (MkPath None None "x" PathTypeElement)) None "" PathTypeObject.

(** The chain of the object steps named by [keys], then the array step
    [key] without fixed index, then the chain [nx]: [k1.k2.key[]] followed
    by [nx]. *)
Fixpoint fanOutChain (keys : list string) (key : string) (nx : Path) : Path :=
  match keys with
  | [] => MkPath (Some nx) None key PathTypeArray
  | k :: keys' => MkPath (Some (fanOutChain keys' key nx)) None k PathTypeObject
  end.

(** The value that object steps named by [keys] reach in [e]: each name
    is looked up in the mapping reached so far; a step without name stays
    where it is. *)
Fixpoint descend (keys : list string) (e : Value) : option Value :=
  match keys with
  | [] => Some e
  | k :: keys' =>
      if String.eqb k "" then descend keys' e
      else match e with
           | VMap m =>
               match map_get k m with
               | Some e' => descend keys' e'
               | None => None
               end
           | _ => None
           end
  end.

(** Some step of the chain has a name. *)
Fixpoint hasName (p : Path) : bool :=
  match p with
  | MkPath next _ name _ =>
      negb (String.eqb name "")
      || match next with
         | Some nx => hasName nx
         | None => false
         end
  end.

(** The value is a mapping. *)
Definition isMap (e : Value) : bool :=
  match e with
  | VMap _ => true
  | _ => false
  end.

(** Index, name and type of every step of a chain, in order. *)
Fixpoint labels (p : Path) : list (option Z * string * PathType) :=
  match p with
  | MkPath next idx name ty =>
      (idx, name, ty) :: match next with
                         | Some nx => labels nx
                         | None => []
                         end
  end.

(** The syntax check of the split function, on two adjacent bytes. *)
Definition illegalPair (a b : ascii) : bool := isValidSyntax (byteval a) (byteval b).

(** Every pair of adjacent bytes that ends at position [n] or before passes
    the syntax check. *)
Definition pairsLegal (data : list ascii) (n : nat) : Prop :=
  forall k a b, (S k <= n)%nat ->
    data !! k = Some a -> data !! S k = Some b -> illegalPair a b = false.

(** What the loop of the split function has established when it is left from
    position [i]. *)
Definition loopExitSpec (path : string) (data : list ascii) (i : nat) (exit : LoopExit) : Prop :=
  match exit with
  | Return (bufio.Token n tok) =>
      (i < n < List.length data)%nat /\ tok = take n data /\ pairsLegal data n
  | Return bufio.More => False
  | Return (bufio.Fail e) => e = IllegalSyntax path
  | Fallthrough => pairsLegal data (List.length data)
  end.

(** What a result of the split function says about [data]. *)
Definition splitSpec (path : string) (data : list ascii) (atEOF : bool)
    (res : bufio.SplitResult SyntaxError) : Prop :=
  match res with
  | bufio.Token n tok =>
      (1 <= n <= List.length data)%nat /\ tok = take n data /\ pairsLegal data n
      /\ (n = List.length data -> atEOF = true)
  | bufio.More => pairsLegal data (List.length data) /\ (atEOF = false \/ data = [])
  | bufio.Fail e => e = IllegalSyntax path
  end.

(** States of the scanner met while [Parse] runs: the pending bytes fit the
    buffer, and the only error recorded so far is the end of the input. *)
Definition scannerOk (s : bufio.Scanner SyntaxError) : Prop :=
  (bufio.start s + List.length (bufio.pending s) <= bufio.bufLen s)%nat
  /\ (bufio.err s = None \/ (bufio.err s = Some bufio.EOF /\ bufio.rd s = [])).

(** The input that has not been given out as a token yet. *)
Definition unconsumed (s : bufio.Scanner SyntaxError) : list ascii :=
  bufio.pending s ++ bufio.rd s.

(** What a call of [Scan] from state [s] has established: a token is a prefix
    of the input not consumed yet, and every pair up to its end is legal; a
    scan that ends without error has found every pair legal. *)
Definition scanSpec (s : bufio.Scanner SyntaxError)
    (res : bufio.Scanner SyntaxError * option (list ascii)) : Prop :=
  match res with
  | (s', Some t) =>
      scannerOk s'
      /\ exists n, (1 <= n <= List.length (unconsumed s))%nat /\ t = take n (unconsumed s)
                   /\ unconsumed s' = drop n (unconsumed s) /\ pairsLegal (unconsumed s) n
  | (s', None) =>
      bufio.Err s' <> None \/ pairsLegal (unconsumed s) (List.length (unconsumed s))
  end.

(** Rounds of the loop of [Scan] that are enough from a state. *)
Definition roundsNeeded (s : bufio.Scanner SyntaxError) : nat :=
  match bufio.err s with
  | Some _ => 1
  | None => List.length (bufio.rd s) + 2
  end.

(** Some two adjacent bytes fail the syntax check. *)
Definition hasIllegalPair (l : list ascii) : Prop :=
  exists k a b, l !! k = Some a /\ l !! S k = Some b /\ illegalPair a b = true.

(** A path that is empty or begins with a dot: the split function fails on
    every call. *)
Definition badStart (p : string) : bool :=
  (String.length p =? 0)%nat || (byteAt (list_ascii_of_string p) 0 =? dot).

(** Illegal syntax in the words of the specification, on the bytes of the
    path: a leading dot; two dots in a row; a dot next to a bracket, which
    is a dot followed by a bracket or an opening bracket followed by a dot
    (a closing bracket followed by a dot is the separator after an array
    marker, as in [a[].b], and the last case allows it); any character
    other than the opening bracket of the array marker immediately before
    a closing bracket, the dot and the closing bracket among them; a
    closing bracket followed by anything but a dot or an opening
    bracket. *)
Definition illegalSyntax (p : string) : Prop :=
  (exists tl, p = String "."%char tl)
  \/ exists l1 a b l2,
       list_ascii_of_string p = l1 ++ a :: b :: l2
       /\ ((a = "."%char /\ b = "."%char)
           \/ (a = "."%char /\ (b = "["%char \/ b = "]"%char))
           \/ (a = "["%char /\ b = "."%char)
           \/ (a <> "["%char /\ b = "]"%char)
           \/ (a = "]"%char /\ b <> "."%char /\ b <> "["%char)).

(** The layouts that [getDates] and [validateDate] use by themselves. *)
Definition dateLayout : string := "2006-01-02".
Definition dateTimeLayout : string := "2006-01-02T15:04:05".

(** The comparison timestamp a parameter resolves to: the timestamp of the
    form field it names, or that field's string parsed with the date layout,
    or, when it names no field, the parameter itself parsed with the
    date-time layout. *)
Definition resolves (time_Parse : string -> string -> option Time)
    (form : Form) (param : string) (d : Time) : Prop :=
  match form !! param with
  | Some (VTime u) => u = d
  | Some other => parseDate time_Parse other dateLayout = Ok d
  | None => time_Parse dateTimeLayout param = Some d
  end.

(** The first of January 2023, 00:00:00 UTC. *)
Definition newYear2023 : Time := 1672531200000000000.

(** Every step of the chain that is not an element has a successor. *)
Fixpoint linked (p : Path) : bool :=
  match p with
  | MkPath (Some nx) _ _ _ => linked nx
  | MkPath None _ _ ty => PathType_eqb ty PathTypeElement
  end.

(** No step of the chain has a fixed index. *)
Fixpoint noIndex (p : Path) : bool :=
  match p with
  | MkPath next None _ _ =>
      match next with
      | Some nx => noIndex nx
      | None => true
      end
  | MkPath _ (Some _) _ _ => false
  end.

(** No step of the chain has a negative fixed index. *)
Fixpoint indexesInRange (p : Path) : bool :=
  match p with
  | MkPath next idx _ _ =>
      match idx with
      | Some i => 0 <=? i
      | None => true
      end
      && match next with
         | Some nx => indexesInRange nx
         | None => true
         end
  end.
(** The value [element] sits in [parent] at [index]: either no position is
    recorded ([index] is [-1]), or [parent] is a sequence that holds
    [element] at position [index]. *)
Definition located (element parent : Value) (index : Z) : Prop :=
  index = -1
  \/ exists l, parent = VSlice l /\ 0 <= index /\ l !! Z.to_nat index = Some element.

(** A context whose fields agree with each other: a not-found context has a
    nil value; a found context reached by name has the mapping it was read
    from as parent and no position; a found context without name is located
    in its parent. *)
Definition consistent (c : Context) : Prop :=
  if ctxNotFound c then ctxValue c = VNil
  else if String.eqb (ctxName c) ""
       then located (ctxValue c) (ctxParent c) (ctxIndex c)
       else ctxIndex c = -1
            /\ exists m, ctxParent c = VMap m
                         /\ map_get (ctxName c) m = Some (ctxValue c).

(** The names and kinds of the steps of a chain, in order. *)
Fixpoint shape (p : Path) : list (string * PathType) :=
  match p with
  | MkPath next _ name ty =>
      (name, ty) :: match next with Some nx => shape nx | None => [] end
  end.
(** The last byte, if there is one, is neither a dot nor an opening
    bracket. *)
Definition lastOk (l : list ascii) : Prop :=
  forall c, last l = Some c -> byteval c <> dot /\ byteval c <> lbracket.

(** Every pair of adjacent bytes passes the syntax check, and the last byte
    is neither a dot nor an opening bracket. *)
Definition legalRest (l : list ascii) : Prop :=
  (forall k a b, l !! k = Some a -> l !! S k = Some b -> illegalPair a b = false)
  /\ lastOk l.

(** The syntax that the split function accepts, on the bytes of the path: it
    is not empty, does not begin with a dot, has no pair of adjacent bytes
    that fails the syntax check, and does not end with a dot or an opening
    bracket. *)
Definition legalSyntax (p : string) : Prop :=
  badStart p = false /\ legalRest (list_ascii_of_string p).

(** States of the scanner on an input that fits the initial buffer: either
    nothing has been read yet, or the whole input has been read at once. *)
Definition shortRegime (s : bufio.Scanner SyntaxError) : Prop :=
  scannerOk s
  /\ (bufio.err s = None ->
      (bufio.bufLen s = bufio.startBufSize /\ bufio.rd s = [])
      \/ (bufio.bufLen s = 0%nat /\ bufio.start s = 0%nat /\ bufio.pending s = []
          /\ (List.length (bufio.rd s) <= bufio.startBufSize)%nat)).

(** What a result of the split function says about the end of [data]. *)
Definition splitEndSpec (p : string) (data : list ascii) (atEOF : bool)
    (res : bufio.SplitResult SyntaxError) : Prop :=
  match res with
  | bufio.Token n tok => n = List.length data -> lastOk data
  | bufio.More => data <> [] -> lastOk data
  | bufio.Fail e => badStart p = false -> ~ legalRest data
  end.

(** What a call of [Scan] on a short input has established. *)
Definition shortScanSpec (p : string) (s : bufio.Scanner SyntaxError)
    (res : bufio.Scanner SyntaxError * option (list ascii)) : Prop :=
  match res with
  | (s', Some t) =>
      shortRegime s'
      /\ exists n, (1 <= n <= List.length (unconsumed s))%nat
                   /\ unconsumed s' = drop n (unconsumed s)
                   /\ (n = List.length (unconsumed s) -> lastOk (unconsumed s))
  | (s', None) =>
      (bufio.Err s' = None /\ unconsumed s = [])
      \/ (bufio.Err s' = Some (bufio.SplitError (IllegalSyntax p))
          /\ (badStart p = false -> ~ legalRest (unconsumed s)))
  end.
(** A byte at which the split function ends a token: a dot or an opening
    bracket. *)
Definition isBoundary (c : ascii) : bool :=
  (byteval c =? dot) || (byteval c =? lbracket).

(** The number of bytes before the first boundary byte. *)
Fixpoint nameLen (l : list ascii) : nat :=
  match l with
  | [] => 0
  | c :: l' => if isBoundary c then 0 else S (nameLen l')
  end.

(** The length of the first token of [l], in the words of the
    specification: a dot is a token of its own; any other token runs up to
    the next dot or opening bracket, or to the end. *)
Definition tokenLen (l : list ascii) : nat :=
  match l with
  | [] => 0
  | c :: l' => if byteval c =? dot then 1 else S (nameLen l')
  end.

(** The tokens of a sequence of bytes. *)
Inductive Tokens : list ascii -> list (list ascii) -> Prop :=
| Tokens_nil : Tokens [] []
| Tokens_cons l ts :
    l <> [] -> Tokens (drop (tokenLen l) l) ts ->
    Tokens l (take (tokenLen l) l :: ts).

(** The chain that the token loop of [Parse] builds from a root. *)
Definition buildFrom (root : Path) (ts : list (list ascii)) : Path :=
  fold_left (fun rootPath t => setTail (parseToken (string_of_list_ascii t)) rootPath)
            ts root.

(** The chain that [Parse] returns for a list of tokens. *)
Definition buildPath (ts : list (list ascii)) : Path :=
  setTail closePath (buildFrom (MkPath None None "" PathTypeElement) ts).

(** A byte that is neither a dot nor a bracket. *)
Definition plainByte (c : ascii) : Prop :=
  byteval c <> dot /\ byteval c <> lbracket /\ byteval c <> rbracket.

(** A name: not empty, and made of bytes that are neither a dot nor a
    bracket. *)
Definition plainName (name : string) : Prop :=
  name <> "" /\ Forall plainByte (list_ascii_of_string name).

(** A path that begins with a bracket. *)
Definition bracketStart (p : string) : bool :=
  (byteAt (list_ascii_of_string p) 0 =? lbracket)
  || (byteAt (list_ascii_of_string p) 0 =? rbracket).

(** * Properties *)

(** ** Chains *)

Lemma Path_chain_ind (P : Path -> Prop) :
  (forall idx name ty, P (MkPath None idx name ty)) ->
  (forall nx idx name ty, P nx -> P (MkPath (Some nx) idx name ty)) ->
  forall p, P p.
Proof.
  intros Hlast Hstep. fix IH 1.
  intros [[nx|] idx name ty]; [apply Hstep, IH | apply Hlast].
Qed.

Lemma Clone_same p : Clone p = p.
Proof.
  induction p as [idx name ty | nx idx name ty IH] using Path_chain_ind; simpl.
  - reflexivity.
  - now rewrite IH.
Qed.

Lemma PathType_eqb_eq a b : PathType_eqb a b = true <-> a = b.
Proof. destruct a, b; simpl; split; congruence. Qed.

Lemma wellFormed_steps p :
  wellFormed p = true -> Forall stepInvariant (steps p).
Proof.
  induction p as [idx name ty | nx idx name ty IH] using Path_chain_ind;
    simpl; intros H.
  - apply PathType_eqb_eq in H. subst ty.
    constructor; [|constructor]. split; simpl; [congruence | reflexivity].
  - apply andb_prop in H as [Hty Hnx].
    constructor; [|now apply IH].
    split; simpl; [eauto |].
    intros ->. discriminate.
Qed.

Lemma building_setTail f p :
  (forall idx name ty, building (f (MkPath None idx name ty)) = true) ->
  building p = true -> building (setTail f p) = true.
Proof.
  intros Hf.
  induction p as [idx name ty | nx idx name ty IH] using Path_chain_ind;
    simpl; intros H.
  - apply Hf.
  - apply andb_prop in H as [-> Hnx]. simpl. now apply IH.
Qed.

Lemma building_parseToken t idx name ty :
  building (parseToken t (MkPath None idx name ty)) = true.
Proof.
  unfold parseToken.
  destruct (String.eqb t "[]"); [destruct ty; reflexivity|].
  destruct (String.eqb t "."); destruct ty; reflexivity.
Qed.

Lemma wellFormed_closePath p :
  building p = true -> wellFormed (setTail closePath p) = true.
Proof.
  induction p as [idx name ty | nx idx name ty IH] using Path_chain_ind;
    simpl; intros H.
  - destruct ty; reflexivity.
  - apply andb_prop in H as [-> Hnx]. simpl. now apply IH.
Qed.

Lemma parseLoop_building fuel p :
  forall scanner rootPath scanner' rootPath',
    building rootPath = true ->
    parseLoop fuel p scanner rootPath = Some (scanner', rootPath') ->
    building rootPath' = true.
Proof.
  induction fuel as [|fuel IH]; intros scanner rootPath scanner' rootPath' Hb H.
  - discriminate.
  - cbn [parseLoop] in H.
    destruct (bufio.Scan (split p) _ scanner) as [[s1 [t|]]|]; [| |discriminate].
    + eapply IH; [|exact H].
      apply building_setTail; [|exact Hb].
      intros; apply building_parseToken.
    + now inversion H; subst.
Qed.

Lemma ParseN_wellFormed fuel p path :
  ParseN fuel p = Some (Ok path) -> wellFormed path = true.
Proof.
  unfold ParseN.
  destruct (parseLoop _ _ _ _) as [[scanner rootPath]|] eqn:Hloop; [|discriminate].
  destruct (bufio.Err scanner); [discriminate|].
  intros H. inversion H; subst.
  apply wellFormed_closePath.
  eapply parseLoop_building; [|exact Hloop]. reflexivity.
Qed.

(** ** Walking *)

Lemma Index_setTail_linkNext nx path :
  Index (setTail (linkNext nx) path) = Index path.
Proof. destruct path as [[q|] idx name ty]; reflexivity. Qed.

Lemma walk_without_array nx :
  HasArray nx = false -> wellFormed nx = true ->
  forall e parent i path,
    exists c, walk nx e parent i path = Some [c]
              /\ Index (ctxPath c) = Index path
              /\ carries c (resolve nx e).
Proof.
  induction nx as [idx name ty | nx idx name ty IH] using Path_chain_ind;
    intros Harr Hwf e parent i path.
  - simpl in Hwf. apply PathType_eqb_eq in Hwf. subst ty. simpl.
    destruct (String.eqb name "").
    + eexists; repeat split; reflexivity.
    + destruct e; try (eexists; repeat split; reflexivity).
      destruct (map_get name m); eexists; repeat split; reflexivity.
  - simpl in Hwf, Harr.
    destruct ty; simpl in Hwf, Harr; try discriminate.
    assert (Hrec : forall e' parent' i',
      exists c, walk nx e' parent' i' (setTail (linkNext nx) path) = Some [c]
                /\ Index (ctxPath c) = Index path
                /\ carries c (resolve nx e')).
    { intros e' parent' i'.
      destruct (IH Harr Hwf e' parent' i' (setTail (linkNext nx) path))
        as (c & Hc & Hi & Hr).
      exists c. rewrite Hi, Index_setTail_linkNext. auto. }
    simpl.
    destruct (String.eqb name "").
    + apply Hrec.
    + destruct e; try (eexists; repeat split; reflexivity).
      destruct (map_get name m); [apply Hrec|].
      eexists; repeat split; reflexivity.
Qed.

Lemma forEach_one_each body (l : list Value) :
  forall k,
    (forall (j : nat) e, l !! j = Some e -> exists c, body e (k + Z.of_nat j) = Some [c]) ->
    exists cs, forEach body l k = Some cs
               /\ List.length cs = List.length l
               /\ forall (j : nat) e, l !! j = Some e ->
                    exists c, cs !! j = Some c /\ body e (k + Z.of_nat j) = Some [c].
Proof.
  induction l as [|v l IH]; intros k Hbody.
  - exists []. repeat split. intros j e H. discriminate.
  - destruct (Hbody 0%nat v eq_refl) as [c Hc].
    rewrite Z.add_0_r in Hc.
    destruct (IH (k + 1)) as (cs & Hcs & Hlen & Hall).
    { intros j e Hj. destruct (Hbody (S j) e Hj) as [c' Hc'].
      exists c'. rewrite <- Hc'. f_equal. lia. }
    exists (c :: cs). simpl. rewrite Hc, Hcs. repeat split.
    + simpl. now rewrite Hlen.
    + intros [|j] e Hj.
      * inversion Hj; subst. exists c. rewrite Z.add_0_r. auto.
      * destruct (Hall j e Hj) as (c' & Hc1 & Hc2).
        exists c'. split; [exact Hc1|].
        rewrite <- Hc2. f_equal. lia.
Qed.

Lemma labels_setTail_linkNext nx path :
  labels (setTail (linkNext nx) path) = labels path ++ [(None, Name nx, Type_ nx)].
Proof.
  induction path as [idx name ty | q idx name ty IH] using Path_chain_ind; simpl.
  - reflexivity.
  - now rewrite IH.
Qed.

Lemma labels_setTail_linkIndexNext i nx path front idx name ty :
  labels path = front ++ [(idx, name, ty)] ->
  labels (setTail (linkIndexNext i nx) path)
  = front ++ [(i, name, ty); (None, Name nx, Type_ nx)].
Proof.
  revert front.
  induction path as [idx0 name0 ty0 | q idx0 name0 ty0 IH] using Path_chain_ind;
    intros front H; simpl in *.
  - destruct front as [|x [|y front]]; simpl in H; inversion H; subst. reflexivity.
  - destruct front as [|x front]; simpl in H.
    + inversion H as [[H1 H2 H3 H4]]. destruct q; discriminate.
    + inversion H as [[H1 H2]]. subst x. simpl. f_equal. now apply IH.
Qed.

(** One walk of a chain without array step: one callback, on a path that
    begins with the steps of [path]. *)
Lemma walk_without_array_index nx :
  HasArray nx = false -> wellFormed nx = true ->
  forall e parent i path,
    exists c, walk nx e parent i path = Some [c]
              /\ labels path `prefix_of` labels (ctxPath c)
              /\ carries c (resolve nx e)
              /\ ctxIndex c = (if hasName nx && isMap e then -1 else i).
Proof.
  induction nx as [idx name ty | nx idx name ty IH] using Path_chain_ind;
    intros Harr Hwf e parent i path.
  - simpl in Hwf. apply PathType_eqb_eq in Hwf. subst ty. simpl.
    destruct (String.eqb name ""); simpl.
    + eexists; repeat split; reflexivity.
    + destruct e; try (eexists; repeat split; reflexivity).
      destruct (map_get name m); eexists; repeat split; reflexivity.
  - simpl in Hwf, Harr.
    destruct ty; simpl in Hwf, Harr; try discriminate.
    assert (Hrec : forall e' parent' i',
      exists c, walk nx e' parent' i' (setTail (linkNext nx) path) = Some [c]
                /\ labels path `prefix_of` labels (ctxPath c)
                /\ carries c (resolve nx e')
                /\ ctxIndex c = (if hasName nx && isMap e' then -1 else i')).
    { intros e' parent' i'.
      destruct (IH Harr Hwf e' parent' i' (setTail (linkNext nx) path))
        as (c & Hc & Hp & Hr & Hi).
      exists c. split; [exact Hc|]. split; [|auto].
      etransitivity; [|exact Hp]. rewrite labels_setTail_linkNext.
      now apply prefix_app_r. }
    simpl.
    destruct (String.eqb name ""); simpl.
    + apply Hrec.
    + destruct e; try (eexists; repeat split; reflexivity).
      destruct (map_get name m) as [e'|].
      * destruct (Hrec e' (VMap m) (-1)) as (c & Hc & Hp & Hr & Hi).
        exists c. repeat split; auto. rewrite Hi. now destruct (_ && _).
      * eexists; repeat split; reflexivity.
Qed.

Lemma walk_fanOutChain key m l nx :
  key <> "" -> map_get key m = Some (VSlice l) -> l <> [] ->
  HasArray nx = false -> wellFormed nx = true ->
  forall keys cur parent index path front idx,
    descend keys cur = Some (VMap m) ->
    labels path
    = front ++ [(idx, Name (fanOutChain keys key nx), Type_ (fanOutChain keys key nx))] ->
    exists cs,
      walk (fanOutChain keys key nx) cur parent index path = Some cs
      /\ List.length cs = List.length l
      /\ forall (i : nat) e, l !! i = Some e ->
           exists c, cs !! i = Some c
             /\ labels (ctxPath c) !! (List.length front + List.length keys)%nat
                = Some (Some (Z.of_nat i), key, PathTypeArray)
             /\ carries c (resolve nx e)
             /\ ctxIndex c = (if hasName nx && isMap e then -1 else Z.of_nat i).
Proof.
  intros Hkey Hget Hne Harr Hwf.
  apply String.eqb_neq in Hkey.
  assert (Hlen : (Z.of_nat (List.length l) =? 0) = false).
  { destruct l; [congruence|]. apply Z.eqb_neq. simpl. lia. }
  induction keys as [|k keys IH]; intros cur parent index path front idx Hcur Hpath.
  - simpl in Hcur. inversion Hcur; subst cur. clear Hcur.
    cbn [fanOutChain Name Type_] in Hpath. cbn [fanOutChain walk].
    rewrite Hkey, Hget, Hlen, andb_false_r, Clone_same.
    set (body := fun (value : Value) (i : Z) =>
      walk nx value (VSlice l) i (setTail (linkIndexNext (Some i) nx) path)).
    destruct (forEach_one_each body l 0) as (cs & Hcs & Hlencs & Hall).
    { intros j e _. unfold body.
      destruct (walk_without_array_index nx Harr Hwf e (VSlice l) (0 + Z.of_nat j)
                  (setTail (linkIndexNext (Some (0 + Z.of_nat j)) nx) path))
        as (c & Hc & _).
      eauto. }
    exists cs. split; [exact Hcs|]. split; [exact Hlencs|].
    intros i e Hi.
    destruct (Hall i e Hi) as (c & Hci & Hbody).
    exists c. split; [exact Hci|].
    unfold body in Hbody. rewrite Z.add_0_l in Hbody.
    destruct (walk_without_array_index nx Harr Hwf e (VSlice l) (Z.of_nat i)
                (setTail (linkIndexNext (Some (Z.of_nat i)) nx) path))
      as (c' & Hc' & Hpre & Hcar & Hidx).
    rewrite Hbody in Hc'. inversion Hc'; subst c'.
    split; [|auto].
    rewrite (labels_setTail_linkIndexNext _ _ _ _ _ _ _ Hpath) in Hpre.
    destruct Hpre as [rest ->].
    rewrite Nat.add_0_r, <- app_assoc, lookup_app_r by lia.
    now rewrite Nat.sub_diag.
  - cbn [fanOutChain Name Type_] in Hpath. cbn [fanOutChain walk].
    set (rest := fanOutChain keys key nx) in *.
    assert (Hnext : forall cur' parent' index',
      descend keys cur' = Some (VMap m) ->
      exists cs,
        walk rest cur' parent' index' (setTail (linkNext rest) path) = Some cs
        /\ List.length cs = List.length l
        /\ forall (i : nat) e, l !! i = Some e ->
             exists c, cs !! i = Some c
               /\ labels (ctxPath c) !! (List.length front + List.length (k :: keys))%nat
                  = Some (Some (Z.of_nat i), key, PathTypeArray)
               /\ carries c (resolve nx e)
               /\ ctxIndex c = (if hasName nx && isMap e then -1 else Z.of_nat i)).
    { intros cur' parent' index' Hcur'.
      destruct (IH cur' parent' index' (setTail (linkNext rest) path)
                  (front ++ [(idx, k, PathTypeObject)]) None Hcur')
        as (cs & Hcs & Hlencs & Hall).
      { rewrite labels_setTail_linkNext, Hpath. reflexivity. }
      exists cs. split; [exact Hcs|]. split; [exact Hlencs|].
      intros i e Hi. destruct (Hall i e Hi) as (c & Hc1 & Hc2 & Hc3).
      exists c. split; [exact Hc1|]. split; [|exact Hc3].
      rewrite <- Hc2. f_equal. rewrite length_app. simpl. lia. }
    simpl in Hcur.
    destruct (String.eqb k ""); [now apply Hnext|].
    destruct cur as [| | | | |fields|]; try discriminate.
    destruct (map_get k fields) as [e'|]; [|discriminate].
    now apply Hnext.
Qed.

(** C4, as amended.  A non-empty sequence [l] is stored under [key] in the
    mapping that the object steps [keys] reach in the data, and is walked
    with the chain of those object steps, the array step [key[]] without
    fixed index, and any well-formed chain [nx] without array step: the
    callback is invoked exactly once per element, in order; the invocation
    for element [i] has [i] as the index of the array step of its path and
    carries the value [nx] resolves to in that element (or is a not-found
    context when [nx] does not resolve).  The [Index] field of the context
    is [-1] when a step of [nx] has a name and the element is a mapping
    ([key[].x] over mappings), and [i] otherwise. *)
Theorem walk_fan_out_once_per_element keys key data m l nx :
  descend keys data = Some (VMap m) ->
  key <> "" -> map_get key m = Some (VSlice l) -> l <> [] ->
  HasArray nx = false -> wellFormed nx = true ->
  exists cs,
    Walk (fanOutChain keys key nx) data = Some cs
    /\ List.length cs = List.length l
    /\ forall (i : nat) e, l !! i = Some e ->
         exists c, cs !! i = Some c
           /\ labels (ctxPath c) !! List.length keys
              = Some (Some (Z.of_nat i), key, PathTypeArray)
           /\ carries c (resolve nx e)
           /\ ctxIndex c = (if hasName nx && isMap e then -1 else Z.of_nat i).
Proof.
  intros Hdata Hkey Hget Hne Harr Hwf. unfold Walk.
  apply (walk_fanOutChain key m l nx Hkey Hget Hne Harr Hwf keys data VNil (-1)
           (MkPath None None (Name (fanOutChain keys key nx))
                   (Type_ (fanOutChain keys key nx))) [] None Hdata).
  reflexivity.
Qed.

Lemma walk_fan_out_once_per_element_witness :
  exists cs,
    Walk (MkPath (Some dotX) None "list" PathTypeArray) (VMap listOfXData) = Some cs
    /\ List.length cs = 3%nat
    /\ forall (i : nat) e, listOfX !! i = Some e ->
         exists c, cs !! i = Some c
           /\ labels (ctxPath c) !! 0%nat = Some (Some (Z.of_nat i), "list", PathTypeArray)
           /\ carries c (resolve dotX e)
           /\ ctxIndex c = (if hasName dotX && isMap e then -1 else Z.of_nat i).
Proof.
  apply (walk_fan_out_once_per_element [] "list" (VMap listOfXData) listOfXData listOfX dotX);
    [reflexivity | discriminate | reflexivity | discriminate | reflexivity | reflexivity].
Defined.

(** C4, as stated, fails on its own example: [Parse "list[].x"] succeeds, the
    walk makes three callbacks with the values 1, 2, 3, and the [Index] field
    of each is [-1], not the index 0, 1, 2 of the element. *)
Lemma walk_fan_out_index_counterexample :
  Parse "list[].x" = Some (Ok (MkPath (Some dotX) None "list" PathTypeArray))
  /\ option_map (List.map ctxValue)
       (Walk (MkPath (Some dotX) None "list" PathTypeArray) (VMap listOfXData))
     = Some [VInt 1; VInt 2; VInt 3]
  /\ option_map (List.map ctxIndex)
       (Walk (MkPath (Some dotX) None "list" PathTypeArray) (VMap listOfXData))
     = Some [-1; -1; -1]
  /\ option_map (List.map ctxIndex)
       (Walk (MkPath (Some dotX) None "list" PathTypeArray) (VMap listOfXData))
     <> Some [0; 1; 2].
Proof. repeat split; try (vm_compute; reflexivity). vm_compute. discriminate. Qed.

(** C5.  Walking [{"a": {}}] with the parsed path [a.b] calls the callback
    once, with [NotFound] set and a nil [Value]; walking [{"a": {"b": nil}}]
    calls it once with [NotFound] unset and a nil [Value]. *)
Theorem walk_absent_key_vs_nil_value :
  exists path,
    Parse "a.b" = Some (Ok path)
    /\ (exists c, Walk path (VMap [("a", VMap [])]) = Some [c]
                  /\ ctxNotFound c = true /\ ctxValue c = VNil)
    /\ (exists c, Walk path (VMap [("a", VMap [("b", VNil)])]) = Some [c]
                  /\ ctxNotFound c = false /\ ctxValue c = VNil).
Proof.
  eexists. split; [vm_compute; reflexivity|].
  split; eexists; (split; [vm_compute; reflexivity|]); split; reflexivity.
Qed.

(** C10.  A fan-out array step (no fixed index) that reaches an empty
    sequence, directly or under its name: when its successor is the element
    step no callback is made; otherwise exactly one not-found callback is
    made. *)
Theorem walk_fan_out_empty_sequence nx name cur parent index path :
  (if String.eqb name "" then cur = VSlice []
   else exists m, cur = VMap m /\ map_get name m = Some (VSlice [])) ->
  walk (MkPath (Some nx) None name PathTypeArray) cur parent index path
  = Some (if PathType_eqb (Type_ nx) PathTypeElement then []
          else [newNotFoundContext (VSlice []) path ""
                  (if String.eqb name "" then index else -1)]).
Proof.
  intros H. cbn [walk].
  destruct (String.eqb name "").
  - subst cur. cbn. destruct (PathType_eqb (Type_ nx) PathTypeElement); reflexivity.
  - destruct H as (m & -> & Hget). rewrite Hget. cbn.
    destruct (PathType_eqb (Type_ nx) PathTypeElement); reflexivity.
Qed.

Lemma walk_fan_out_empty_sequence_witness :
  Walk (MkPath (Some (MkPath None None "" PathTypeElement)) None "list" PathTypeArray)
       (VMap [("list", VSlice [])]) = Some []
  /\ Walk (MkPath (Some dotX) None "list" PathTypeArray) (VMap [("list", VSlice [])])
     = Some [newNotFoundContext (VSlice []) (MkPath None None "list" PathTypeArray) "" (-1)].
Proof.
  split.
  - apply (walk_fan_out_empty_sequence (MkPath None None "" PathTypeElement) "list"
             (VMap [("list", VSlice [])]) VNil (-1) (MkPath None None "list" PathTypeArray)).
    simpl. eexists. split; reflexivity.
  - apply (walk_fan_out_empty_sequence dotX "list"
             (VMap [("list", VSlice [])]) VNil (-1) (MkPath None None "list" PathTypeArray)).
    simpl. eexists. split; reflexivity.
Defined.

(** ** Decoding runes *)

Lemma byteval_bounds c : 0 <= byteval c < 256.
Proof.
  unfold byteval. pose proof (N_ascii_bounded c). lia.
Qed.

Lemma lor_ge_l a b : 0 <= a -> 0 <= b -> a <= Z.lor a b.
Proof.
  intros Ha Hb.
  pose proof (Z.sub_lor_l_same_l b a) as H.
  assert (0 <= Z.land b (Z.lnot a)) by (apply Z.land_nonneg; auto).
  lia.
Qed.

Lemma lor_ge_r a b : 0 <= a -> 0 <= b -> b <= Z.lor a b.
Proof. intros. rewrite Z.lor_comm. now apply lor_ge_l. Qed.

Ltac bits :=
  change 31 with (Z.ones 5) in *; change 63 with (Z.ones 6) in *;
  change 15 with (Z.ones 4) in *; change 7 with (Z.ones 3) in *;
  rewrite ?Z.land_ones, ?Z.shiftl_mul_pow2 in * by lia.

Lemma rune2_high p0 b1 :
  194 <= p0 -> p0 < 224 -> 0 <= b1 ->
  128 <= Z.lor (Z.shiftl (Z.land p0 31) 6) (Z.land b1 63).
Proof.
  intros. etransitivity; [|apply lor_ge_l].
  - bits. Z.div_mod_to_equations. lia.
  - bits. Z.div_mod_to_equations. lia.
  - apply Z.land_nonneg. auto.
Qed.

Lemma rune3_high p0 b1 b2 :
  224 <= p0 -> p0 < 240 -> (p0 = 224 -> 160 <= b1) -> 128 <= b1 <= 191 -> 0 <= b2 ->
  128 <= Z.lor (Z.lor (Z.shiftl (Z.land p0 15) 12) (Z.shiftl (Z.land b1 63) 6))
               (Z.land b2 63).
Proof.
  intros.
  assert (HA : 0 <= Z.shiftl (Z.land p0 15) 12) by (bits; Z.div_mod_to_equations; lia).
  assert (HB : 0 <= Z.shiftl (Z.land b1 63) 6) by (bits; Z.div_mod_to_equations; lia).
  etransitivity; [|apply lor_ge_l; [apply Z.lor_nonneg; auto | apply Z.land_nonneg; auto]].
  destruct (Z.eq_dec p0 224).
  - etransitivity; [|apply lor_ge_r; auto]. bits. Z.div_mod_to_equations. lia.
  - etransitivity; [|apply lor_ge_l; auto]. bits. Z.div_mod_to_equations. lia.
Qed.

Lemma rune4_high p0 b1 b2 b3 :
  240 <= p0 -> p0 <= 244 -> (p0 = 240 -> 144 <= b1) -> 128 <= b1 <= 191 ->
  0 <= b2 -> 0 <= b3 ->
  128 <= Z.lor (Z.lor (Z.lor (Z.shiftl (Z.land p0 7) 18) (Z.shiftl (Z.land b1 63) 12))
                      (Z.shiftl (Z.land b2 63) 6))
               (Z.land b3 63).
Proof.
  intros.
  assert (HA : 0 <= Z.shiftl (Z.land p0 7) 18) by (bits; Z.div_mod_to_equations; lia).
  assert (HB : 0 <= Z.shiftl (Z.land b1 63) 12) by (bits; Z.div_mod_to_equations; lia).
  assert (HC : 0 <= Z.shiftl (Z.land b2 63) 6) by (bits; Z.div_mod_to_equations; lia).
  etransitivity; [|apply lor_ge_l; [repeat (apply Z.lor_nonneg; split); auto | apply Z.land_nonneg; auto]].
  etransitivity; [|apply lor_ge_l; [apply Z.lor_nonneg; auto | auto]].
  destruct (Z.eq_dec p0 240).
  - etransitivity; [|apply lor_ge_r; auto]. bits. Z.div_mod_to_equations. lia.
  - etransitivity; [|apply lor_ge_l; auto]. bits. Z.div_mod_to_equations. lia.
Qed.

Lemma byteAt_bounds p j : 0 <= byteAt p j < 256.
Proof.
  unfold byteAt. destruct (p !! j); [apply byteval_bounds | lia].
Qed.

Ltac split_ifs :=
  repeat match goal with
         | |- context [if ?b then _ else _] => destruct b eqn:?
         | H : context [if ?b then _ else _] |- _ => destruct b eqn:?
         end.

Ltac bool_props :=
  repeat match goal with
         | H : (_ || _) = false |- _ => apply orb_false_iff in H as [? ?]
         | H : (_ && _) = true |- _ => apply andb_true_iff in H as [? ?]
         | H : (_ || _) = true |- _ => apply orb_true_iff in H
         | H : (_ && _) = false |- _ => apply andb_false_iff in H
         | H : negb _ = true |- _ => apply negb_true_iff in H
         | H : negb _ = false |- _ => apply negb_false_iff in H
         | H : (_ <? _) = true |- _ => apply Z.ltb_lt in H
         | H : (_ <? _) = false |- _ => apply Z.ltb_ge in H
         | H : (_ <=? _) = true |- _ => apply Z.leb_le in H
         | H : (_ <=? _) = false |- _ => apply Z.leb_gt in H
         | H : (_ =? _) = true |- _ => apply Z.eqb_eq in H
         | H : (_ =? _) = false |- _ => apply Z.eqb_neq in H
         | H : (_ <? _)%nat = true |- _ => apply Nat.ltb_lt in H
         | H : (_ <? _)%nat = false |- _ => apply Nat.ltb_ge in H
         | H : (_ <=? _)%nat = true |- _ => apply Nat.leb_le in H
         | H : (_ <=? _)%nat = false |- _ => apply Nat.leb_gt in H
         | H : (_ =? _)%nat = true |- _ => apply Nat.eqb_eq in H
         | H : (_ =? _)%nat = false |- _ => apply Nat.eqb_neq in H
         end.

Lemma seqSize_cases p0 :
  (seqSize p0 = 2%nat /\ p0 < 224)
  \/ (seqSize p0 = 3%nat /\ 224 <= p0 < 240)
  \/ (seqSize p0 = 4%nat /\ 240 <= p0).
Proof. unfold seqSize. split_ifs; bool_props; lia. Qed.

Lemma acceptRange_bounds p0 lo hi :
  acceptRange p0 = (lo, hi) ->
  128 <= lo /\ hi <= 191 /\ (p0 = 224 -> lo = 160) /\ (p0 = 240 -> lo = 144).
Proof.
  unfold acceptRange. split_ifs; bool_props; intros [= <- <-]; lia.
Qed.

Lemma DecodeRune_cons c p :
  exists r w,
    DecodeRune (c :: p) = (r, w)
    /\ (1 <= w <= S (List.length p))%nat
    /\ (byteval c < 128 -> r = byteval c /\ w = 1%nat)
    /\ (128 <= byteval c ->
        128 <= r /\ forall j, (1 <= j < w)%nat -> 128 <= byteAt (c :: p) j).
Proof.
  pose proof (byteval_bounds c) as Hc.
  pose proof (byteAt_bounds (c :: p) 1) as H1.
  pose proof (byteAt_bounds (c :: p) 2) as H2.
  pose proof (byteAt_bounds (c :: p) 3) as H3.
  unfold DecodeRune, continuation, RuneError.
  destruct (byteval c <? 128) eqn:Hascii; bool_props.
  { exists (byteval c), 1%nat. cbn [List.length]. repeat split; lia. }
  destruct ((byteval c <? 194) || (244 <? byteval c)) eqn:Hlead.
  { exists 65533, 1%nat. cbn [List.length]. repeat split; lia. }
  bool_props.
  destruct (acceptRange (byteval c)) as [lo hi] eqn:Hacc.
  apply acceptRange_bounds in Hacc as (Hlo & Hhi & H224 & H240).
  cbn [List.length].
  destruct (seqSize_cases (byteval c)) as [[-> Hr]|[[-> Hr]|[-> Hr]]];
    cbn [Nat.leb];
    split_ifs; bool_props;
    eexists; eexists; (split; [reflexivity|]);
    (split; [lia|]); (split; [intros; lia|]);
    intros _; (split;
      [ lazymatch goal with
        | |- _ <= Z.lor (Z.lor (Z.lor _ _) _) _ => apply rune4_high; lia
        | |- _ <= Z.lor (Z.lor _ _) _ => apply rune3_high; lia
        | |- _ <= Z.lor _ _ => apply rune2_high; lia
        | |- _ => lia
        end
      | intros j Hj; destruct j as [|[|[|[|j]]]]; lia ]).
Qed.

(** ** The split function *)

Lemma isValidSyntax_high_l r r' n :
  128 <= r -> 128 <= r' -> isValidSyntax r n = isValidSyntax r' n.
Proof.
  intros. unfold isValidSyntax, dot, lbracket, rbracket.
  destruct (Z.eqb_spec r 46), (Z.eqb_spec r 91), (Z.eqb_spec r 93),
    (Z.eqb_spec r' 46), (Z.eqb_spec r' 91), (Z.eqb_spec r' 93); try lia; reflexivity.
Qed.

Lemma isValidSyntax_high_r r n n' :
  128 <= n -> 128 <= n' -> isValidSyntax r n = isValidSyntax r n'.
Proof.
  intros. unfold isValidSyntax, dot, lbracket, rbracket.
  destruct (Z.eqb_spec n 46), (Z.eqb_spec n 91), (Z.eqb_spec n 93),
    (Z.eqb_spec n' 46), (Z.eqb_spec n' 91), (Z.eqb_spec n' 93); try lia; reflexivity.
Qed.

Lemma isValidSyntax_high_high r n :
  128 <= r -> 128 <= n -> isValidSyntax r n = false.
Proof.
  intros. unfold isValidSyntax, dot, lbracket, rbracket.
  destruct (Z.eqb_spec r 46), (Z.eqb_spec r 91), (Z.eqb_spec r 93),
    (Z.eqb_spec n 46), (Z.eqb_spec n 91), (Z.eqb_spec n 93); try lia; reflexivity.
Qed.

Lemma byteAt_drop data i j : byteAt (drop i data) j = byteAt data (i + j).
Proof. unfold byteAt. now rewrite lookup_drop. Qed.

Lemma byteAt_lookup (data : list ascii) k a : data !! k = Some a -> byteAt data k = byteval a.
Proof. unfold byteAt. now intros ->. Qed.

(** The rune decoded at a position agrees, as far as the syntax check can
    tell, with the byte at that position. *)
Lemma DecodeRune_head (data : list ascii) i c r w n :
  data !! i = Some c -> DecodeRune (drop i data) = (r, w) ->
  isValidSyntax n r = isValidSyntax n (byteval c).
Proof.
  intros Hc Hdec. rewrite (drop_S _ _ _ Hc) in Hdec.
  destruct (DecodeRune_cons c (drop (S i) data)) as (r' & w' & Hdec' & _ & Hlow & Hhigh).
  rewrite Hdec in Hdec'. inversion Hdec'; subst r' w'.
  destruct (Z.lt_ge_cases (byteval c) 128) as [Hlt|Hge].
  - now destruct (Hlow Hlt) as [-> _].
  - destruct (Hhigh Hge) as [Hr _]. now apply isValidSyntax_high_r.
Qed.

(** One round of the loop: the pairs inside the rune at [i] are legal, and
    the pair made of its last byte and the next byte is the one checked. *)
Lemma rune_pairs (data : list ascii) i c r w :
  data !! i = Some c -> DecodeRune (drop i data) = (r, w) ->
  (1 <= w)%nat /\ (i + w <= List.length data)%nat
  /\ (forall k a b, (i <= k)%nat -> (S k < i + w)%nat ->
        data !! k = Some a -> data !! S k = Some b -> illegalPair a b = false)
  /\ (forall a next, data !! (i + w - 1)%nat = Some a ->
        isValidSyntax r next = isValidSyntax (byteval a) next).
Proof.
  intros Hc Hdec. pose proof (lookup_lt_Some _ _ _ Hc) as Hi.
  rewrite (drop_S _ _ _ Hc) in Hdec.
  destruct (DecodeRune_cons c (drop (S i) data)) as (r' & w' & Hdec' & Hw & Hlow & Hhigh).
  rewrite Hdec in Hdec'. inversion Hdec'; subst r' w'. clear Hdec'.
  rewrite length_drop in Hw.
  assert (Hat : forall j a, data !! (i + j)%nat = Some a ->
                  byteAt (c :: drop (S i) data) j = byteval a).
  { intros j a Ha. rewrite <- (drop_S _ _ _ Hc), byteAt_drop. now apply byteAt_lookup. }
  split; [lia|]. split; [lia|]. split.
  - intros k a b Hik Hk Ha Hb.
    destruct (Z.lt_ge_cases (byteval c) 128) as [Hlt|Hge];
      [destruct (Hlow Hlt); lia|].
    destruct (Hhigh Hge) as [_ Hcont].
    apply isValidSyntax_high_high.
    + destruct (decide (k = i)) as [->|Hne].
      * rewrite Hc in Ha. inversion Ha; subst. lia.
      * rewrite <- (Hat (k - i)%nat a) by (rewrite <- Ha; f_equal; lia).
        apply Hcont. lia.
    + rewrite <- (Hat (S k - i)%nat b) by (rewrite <- Hb; f_equal; lia).
      apply Hcont. lia.
  - intros a next Ha.
    destruct (Z.lt_ge_cases (byteval c) 128) as [Hlt|Hge].
    + destruct (Hlow Hlt) as [-> ->].
      replace (i + 1 - 1)%nat with i in Ha by lia.
      rewrite Hc in Ha. now inversion Ha.
    + destruct (Hhigh Hge) as [Hr Hcont].
      apply isValidSyntax_high_l; [exact Hr|].
      destruct (decide (w = 1%nat)) as [->|Hne].
      * replace (i + 1 - 1)%nat with i in Ha by lia.
        rewrite Hc in Ha. inversion Ha; subst. lia.
      * rewrite <- (Hat (w - 1)%nat a) by (rewrite <- Ha; f_equal; lia).
        apply Hcont. lia.
Qed.

Lemma pairsLegal_step (data : list ascii) i w :
  pairsLegal data i ->
  (forall k a b, (i <= k)%nat -> (S k < i + w)%nat ->
     data !! k = Some a -> data !! S k = Some b -> illegalPair a b = false) ->
  (forall a b, data !! (i + w - 1)%nat = Some a -> data !! (i + w)%nat = Some b ->
     illegalPair a b = false) ->
  (1 <= w)%nat ->
  pairsLegal data (i + w).
Proof.
  intros Hi Hin Hlast Hw k a b Hk Ha Hb.
  destruct (decide (S k <= i)%nat); [now apply (Hi k)|].
  destruct (decide (S k = i + w)%nat) as [Heq|Hne].
  - apply Hlast.
    + rewrite <- Ha. f_equal. lia.
    + rewrite <- Hb. f_equal. lia.
  - apply (Hin k); auto; lia.
Qed.

Lemma pairsLegal_beyond (data : list ascii) n :
  (List.length data <= n)%nat -> pairsLegal data n -> pairsLegal data (List.length data).
Proof.
  intros Hn H k a b Hk Ha Hb. apply (H k); auto. lia.
Qed.

Lemma splitLoop_sound fuel path data :
  forall i exit,
    pairsLegal data i ->
    splitLoop fuel path data i = Some exit ->
    loopExitSpec path data i exit.
Proof.
  induction fuel as [|fuel IH]; intros i exit Hlegal Hloop.
  - cbn [splitLoop] in Hloop.
    destruct (i <? List.length data)%nat eqn:Hi; [discriminate|].
    inversion Hloop; subst. apply Nat.ltb_ge in Hi.
    now apply (pairsLegal_beyond data i).
  - cbn [splitLoop] in Hloop.
    destruct (i <? List.length data)%nat eqn:Hi.
    2:{ inversion Hloop; subst. apply Nat.ltb_ge in Hi.
        now apply (pairsLegal_beyond data i). }
    apply Nat.ltb_lt in Hi.
    destruct (lookup_lt_is_Some_2 data i Hi) as [c Hc].
    destruct (DecodeRune (drop i data)) as [r w] eqn:Hdec.
    destruct (rune_pairs data i c r w Hc Hdec) as (Hw & Hlen & Hin & Hlast).
    destruct (i + w <? List.length data)%nat eqn:Hnext.
    + apply Nat.ltb_lt in Hnext.
      destruct (lookup_lt_is_Some_2 data (i + w) Hnext) as [c' Hc'].
      destruct (lookup_lt_is_Some_2 data (i + w - 1)) as [a Ha]; [lia|].
      destruct (DecodeRune (drop (i + w) data)) as [next w'] eqn:Hdec'.
      assert (Hchk : isValidSyntax r next = illegalPair a c').
      { unfold illegalPair. rewrite (Hlast a next Ha).
        apply (DecodeRune_head data (i + w) c' next w' _ Hc' Hdec'). }
      destruct (isValidSyntax r next) eqn:Hsyn.
      { inversion Hloop; subst. reflexivity. }
      assert (Hstep : pairsLegal data (i + w)).
      { apply pairsLegal_step; auto.
        intros a0 b0 Ha0 Hb0. rewrite Ha in Ha0. rewrite Hc' in Hb0.
        inversion Ha0; inversion Hb0; subst. now rewrite <- Hchk. }
      destruct ((r =? dot) && (i =? 0)%nat).
      { inversion Hloop; subst. simpl. repeat split; auto; lia. }
      destruct ((next =? dot) || (next =? lbracket)).
      { inversion Hloop; subst. simpl. repeat split; auto; lia. }
      specialize (IH (i + w)%nat exit Hstep Hloop).
      destruct exit as [[n tok| |e]|]; simpl in *; auto.
      destruct IH as (? & ? & ?). repeat split; auto; lia.
    + apply Nat.ltb_ge in Hnext.
      destruct ((r =? dot) || (r =? lbracket)).
      { inversion Hloop; subst. reflexivity. }
      assert (Hstep : pairsLegal data (i + w)).
      { apply pairsLegal_step; auto.
        intros a0 b0 _ Hb0. apply lookup_lt_Some in Hb0. lia. }
      specialize (IH (i + w)%nat exit Hstep Hloop).
      destruct exit as [[n tok| |e]|]; simpl in *; auto.
      destruct IH as (? & ? & ?). repeat split; auto; lia.
Qed.

Lemma splitLoop_total fuel path data :
  forall i, (List.length data <= i + fuel)%nat ->
    exists exit, splitLoop fuel path data i = Some exit.
Proof.
  induction fuel as [|fuel IH]; intros i Hfuel.
  - cbn [splitLoop].
    destruct (i <? List.length data)%nat eqn:Hi; [|eauto].
    apply Nat.ltb_lt in Hi. lia.
  - cbn [splitLoop].
    destruct (i <? List.length data)%nat eqn:Hi; [|eauto].
    apply Nat.ltb_lt in Hi.
    destruct (lookup_lt_is_Some_2 data i Hi) as [c Hc].
    destruct (DecodeRune (drop i data)) as [r w] eqn:Hdec.
    destruct (rune_pairs data i c r w Hc Hdec) as (Hw & Hlen & _).
    destruct (i + w <? List.length data)%nat.
    + destruct (DecodeRune (drop (i + w) data)) as [next w'].
      destruct (isValidSyntax r next); [eauto|].
      destruct ((r =? dot) && (i =? 0)%nat); [eauto|].
      destruct ((next =? dot) || (next =? lbracket)); [eauto|].
      apply IH. lia.
    + destruct ((r =? dot) || (r =? lbracket)); [eauto|].
      apply IH. lia.
Qed.

Lemma pairsLegal_0 data : pairsLegal data 0.
Proof. intros k a b Hk. lia. Qed.

Lemma split_sound path data atEOF res :
  split path data atEOF = Some res -> splitSpec path data atEOF res.
Proof.
  unfold split.
  destruct (_ || _); [intros [= <-]; reflexivity|].
  destruct (splitLoop _ _ _ _) as [exit|] eqn:Hloop; [|discriminate].
  apply splitLoop_sound in Hloop; [|apply pairsLegal_0].
  destruct exit as [res'|].
  - intros [= <-]. destruct res' as [n tok| |e]; simpl in *; [|contradiction|assumption].
    destruct Hloop as (? & ? & ?). repeat split; auto; lia.
  - simpl in Hloop.
    destruct atEOF; simpl.
    + destruct (0 <? List.length data)%nat eqn:Hlen; intros [= <-]; simpl.
      * apply Nat.ltb_lt in Hlen. rewrite firstn_all. repeat split; auto; lia.
      * apply Nat.ltb_ge in Hlen. split; [auto|]. right.
        destruct data; [reflexivity|simpl in Hlen; lia].
    + intros [= <-]. simpl. auto.
Qed.

Lemma split_total path data atEOF :
  exists res, split path data atEOF = Some res.
Proof.
  unfold split.
  destruct (_ || _); [eauto|].
  destruct (splitLoop_total (List.length data) path data 0%nat) as [exit ->]; [lia|].
  destruct exit; [eauto|].
  destruct (atEOF && _); eauto.
Qed.

(** ** The scanner *)

Lemma sizes_positive :
  (0 < bufio.startBufSize)%nat /\ (0 < bufio.MaxScanTokenSize)%nat.
Proof.
  assert (H : forall z, 0 < z -> (0 < Z.to_nat z)%nat) by (intros; lia).
  split; apply H; reflexivity.
Qed.

Lemma fill_inr s s' :
  scannerOk s -> bufio.fill s = inr s' ->
  scannerOk s' /\ unconsumed s' = unconsumed s /\ bufio.err s = None
  /\ ((bufio.rd s = [] /\ bufio.err s' = Some bufio.EOF)
      \/ (bufio.err s' = None /\ (List.length (bufio.rd s') < List.length (bufio.rd s))%nat)).
Proof.
  intros [Hsz Herr] Hfill. pose proof sizes_positive as [Hs Hm].
  unfold bufio.fill in Hfill.
  destruct (bufio.err s) eqn:He; [discriminate|].
  destruct s as [rd bufLen start pending err].
  cbn [bufio.rd bufio.bufLen bufio.start bufio.pending bufio.err] in *. subst err.
  set (start1 := if (0 <? start)%nat && _ then 0%nat else start) in *.
  assert (Hstart1 : (start1 + List.length pending <= bufLen)%nat).
  { subst start1. destruct (_ && _); lia. }
  destruct (start1 + List.length pending =? bufLen)%nat eqn:Hfull.
  - destruct (bufio.MaxScanTokenSize <=? bufLen)%nat eqn:Hmax; [discriminate|].
    apply Nat.leb_gt in Hmax.
    set (newSize := Nat.min _ bufio.MaxScanTokenSize) in *.
    assert (Hnew : (bufLen < newSize)%nat).
    { subst newSize. destruct (bufLen * 2 =? 0)%nat eqn:Hz.
      - apply Nat.eqb_eq in Hz. lia.
      - apply Nat.eqb_neq in Hz. lia. }
    destruct rd as [|c rd].
    + injection Hfill as <-. unfold scannerOk, unconsumed.
      cbn [bufio.rd bufio.bufLen bufio.start bufio.pending bufio.err].
      split; [split; [lia|auto]|]. auto.
    + set (n := Nat.min (List.length (c :: rd)) _) in Hfill.
      assert (Hn : (1 <= n <= List.length (c :: rd))%nat
                   /\ (List.length pending + n <= newSize)%nat).
      { subst n. cbn [List.length]. lia. }
      injection Hfill as <-. unfold scannerOk, unconsumed.
      cbn [bufio.rd bufio.bufLen bufio.start bufio.pending bufio.err].
      rewrite length_app, length_take, length_drop, <- app_assoc, take_drop.
      split; [split; [lia|auto]|]. split; [reflexivity|]. split; [reflexivity|].
      right. split; [reflexivity|]. lia.
  - apply Nat.eqb_neq in Hfull.
    destruct rd as [|c rd].
    + injection Hfill as <-. unfold scannerOk, unconsumed.
      cbn [bufio.rd bufio.bufLen bufio.start bufio.pending bufio.err].
      split; [split; [lia|auto]|]. auto.
    + set (n := Nat.min (List.length (c :: rd)) _) in Hfill.
      assert (Hn : (1 <= n <= List.length (c :: rd))%nat
                   /\ (start1 + List.length pending + n <= bufLen)%nat).
      { subst n. cbn [List.length]. lia. }
      injection Hfill as <-. unfold scannerOk, unconsumed.
      cbn [bufio.rd bufio.bufLen bufio.start bufio.pending bufio.err].
      rewrite length_app, length_take, length_drop, <- app_assoc, take_drop.
      split; [split; [lia|auto]|]. split; [reflexivity|]. split; [reflexivity|].
      right. split; [reflexivity|]. lia.
Qed.

Lemma fill_inl s s' :
  scannerOk s -> bufio.fill s = inl s' ->
  (bufio.err s = Some bufio.EOF /\ bufio.rd s = [])
  \/ bufio.err s' = Some bufio.ErrTooLong.
Proof.
  intros [Hsz Herr] Hfill. unfold bufio.fill in Hfill.
  destruct (bufio.err s) eqn:He.
  - left. destruct Herr as [|[? ?]]; [discriminate|]. split; congruence.
  - right. destruct (_ =? _)%nat; [|destruct (bufio.rd s); discriminate].
    destruct (_ <=? _)%nat; [|destruct (bufio.rd s); discriminate].
    inversion Hfill. reflexivity.
Qed.

Lemma pairsLegal_app_l (l1 l2 : list ascii) n :
  pairsLegal l1 n -> (n < List.length l1 \/ l2 = [])%nat -> pairsLegal (l1 ++ l2) n.
Proof.
  intros H Hn k a b Hk Ha Hb.
  destruct Hn as [Hn| ->]; [|rewrite app_nil_r in *; now apply (H k)].
  rewrite lookup_app_l in Ha by lia. rewrite lookup_app_l in Hb by lia.
  now apply (H k).
Qed.

Lemma setErr_Err (s : bufio.Scanner SyntaxError) e :
  scannerOk s -> e <> bufio.EOF -> bufio.Err (bufio.setErr s e) = Some e.
Proof.
  intros [_ Herr] He. unfold bufio.setErr, bufio.Err.
  destruct Herr as [->|[-> _]]; simpl; destruct e; congruence.
Qed.

Lemma Scan_sound p fuel :
  forall s res, scannerOk s -> bufio.Scan (split p) fuel s = Some res -> scanSpec s res.
Proof.
  induction fuel as [|fuel IH]; intros s res Hgood Hscan; [discriminate|].
  cbn [bufio.Scan] in Hscan.
  set (atEOF := bool_decide (is_Some (bufio.err s))) in *.
  assert (Hfill : forall res,
    (atEOF = true -> bufio.pending s = []) ->
    match bufio.fill s with
    | inl s' => Some (s', None)
    | inr s' => bufio.Scan (split p) fuel s'
    end = Some res -> scanSpec s res).
  { intros res0 Hempty H0.
    destruct (bufio.fill s) as [s'|s'] eqn:Hf.
    - inversion H0; subst. simpl.
      destruct (fill_inl s s' Hgood Hf) as [[He Hrd]|He].
      + right. unfold unconsumed. rewrite Hrd, Hempty, app_nil_r.
        * intros k a b _ Ha. discriminate.
        * subst atEOF. rewrite He. apply bool_decide_eq_true_2. eauto.
      + left. unfold bufio.Err. now rewrite He.
    - destruct (fill_inr s s' Hgood Hf) as (Hg & Hrest & _).
      specialize (IH s' res0 Hg H0).
      unfold scanSpec in *. destruct res0 as [s2 [t|]]; now rewrite <- Hrest. }
  destruct ((0 <? List.length (bufio.pending s))%nat || atEOF) eqn:Hcond.
  2:{ apply orb_false_iff in Hcond as [_ Hcond]. apply Hfill; [|exact Hscan].
      rewrite Hcond. discriminate. }
  destruct (split p (bufio.pending s) atEOF) as [sr|] eqn:Hsplit; [|discriminate].
  apply split_sound in Hsplit.
  destruct sr as [n tok| |e]; simpl in Hsplit.
  - destruct Hsplit as (Hn & Htok & Hlegal & Hall).
    destruct (List.length (bufio.pending s) <? n)%nat eqn:Hadv;
      [apply Nat.ltb_lt in Hadv; lia|].
    inversion Hscan; subst res. clear Hscan. simpl.
    destruct Hgood as [Hsz Herr]. split.
    + split; cbn [bufio.rd bufio.bufLen bufio.start bufio.pending bufio.err]; [|exact Herr].
      rewrite length_drop. lia.
    + exists n. unfold unconsumed.
      cbn [bufio.rd bufio.bufLen bufio.start bufio.pending bufio.err].
      rewrite length_app, take_app_le, drop_app_le by lia.
      split; [lia|]. split; [exact Htok|]. split; [reflexivity|].
      apply pairsLegal_app_l; [exact Hlegal|].
      destruct (decide (n = List.length (bufio.pending s))) as [Heq|Hne]; [|left; lia].
      right. specialize (Hall Heq). subst atEOF.
      apply bool_decide_eq_true_1 in Hall as [x Hx].
      destruct Herr as [Hnone|[_ Hrd]]; [congruence|exact Hrd].
  - destruct Hsplit as [Hlegal Hcase]. apply Hfill; [|exact Hscan].
    intros HatEOF. destruct Hcase; congruence.
  - inversion Hscan; subst. simpl. left.
    rewrite setErr_Err; [discriminate|exact Hgood|discriminate].
Qed.

Lemma Scan_total p fuel :
  forall s, scannerOk s -> (roundsNeeded s <= fuel)%nat ->
    exists res, bufio.Scan (split p) fuel s = Some res.
Proof.
  induction fuel as [|fuel IH]; intros s Hgood Hfuel.
  - unfold roundsNeeded in Hfuel. destruct (bufio.err s); lia.
  - cbn [bufio.Scan].
    assert (Hfill : exists res,
      match bufio.fill s with
      | inl s' => Some (s', None)
      | inr s' => bufio.Scan (split p) fuel s'
      end = Some res).
    { destruct (bufio.fill s) as [s'|s'] eqn:Hf; [eauto|].
      destruct (fill_inr s s' Hgood Hf) as (Hg & _ & He & Hcase).
      apply IH; [exact Hg|].
      unfold roundsNeeded in *. rewrite He in Hfuel.
      destruct Hcase as [[_ ->]|[-> Hlt]]; lia. }
    destruct (_ || _); [|exact Hfill].
    destruct (split_total p (bufio.pending s) (bool_decide (is_Some (bufio.err s))))
      as [sr ->].
    destruct sr as [n tok| |e]; [|exact Hfill|eauto].
    destruct (_ <? _)%nat; eauto.
Qed.

Lemma length_list_ascii_of_string p :
  List.length (list_ascii_of_string p) = String.length p.
Proof. induction p as [|c p IH]; simpl; congruence. Qed.

Lemma scannerOk_createPathScanner p : scannerOk (createPathScanner p).
Proof. split; simpl; auto. Qed.

Lemma unconsumed_createPathScanner p : unconsumed (createPathScanner p) = list_ascii_of_string p.
Proof. reflexivity. Qed.

Lemma roundsNeeded_unconsumed s : (roundsNeeded s <= List.length (unconsumed s) + 2)%nat.
Proof.
  unfold roundsNeeded, unconsumed. rewrite length_app. destruct (bufio.err s); lia.
Qed.

Lemma parseLoop_total p fuel :
  forall s rootPath,
    scannerOk s -> (List.length (unconsumed s) <= String.length p)%nat ->
    (List.length (unconsumed s) < fuel)%nat ->
    exists res, parseLoop fuel p s rootPath = Some res.
Proof.
  induction fuel as [|fuel IH]; intros s rootPath Hgood Hlen Hfuel; [lia|].
  cbn [parseLoop].
  destruct (Scan_total p (S (S (String.length p))) s Hgood) as [[s1 tok] Hscan].
  { pose proof (roundsNeeded_unconsumed s). lia. }
  rewrite Hscan. apply Scan_sound in Hscan; [|exact Hgood].
  destruct tok as [t|]; [|eauto].
  destruct Hscan as (Hg & n & Hn & _ & Hrest & _).
  apply IH; [exact Hg| |]; rewrite Hrest, length_drop; lia.
Qed.

Lemma parseLoop_rejects p fuel :
  forall s rootPath s' rootPath',
    scannerOk s -> hasIllegalPair (unconsumed s) ->
    parseLoop fuel p s rootPath = Some (s', rootPath') ->
    bufio.Err s' <> None.
Proof.
  induction fuel as [|fuel IH]; intros s rootPath s' rootPath' Hgood Hbad Hloop;
    [discriminate|].
  cbn [parseLoop] in Hloop.
  destruct (bufio.Scan (split p) _ s) as [[s1 tok]|] eqn:Hscan; [|discriminate].
  apply Scan_sound in Hscan; [|exact Hgood].
  destruct Hbad as (k & a & b & Ha & Hb & Hill).
  destruct tok as [t|].
  - destruct Hscan as (Hg & n & Hn & _ & Hrest & Hlegal).
    eapply IH; [exact Hg| |exact Hloop].
    destruct (decide (S k <= n)%nat) as [Hk|Hk].
    { rewrite (Hlegal k a b Hk Ha Hb) in Hill. discriminate. }
    exists (k - n)%nat, a, b. rewrite Hrest, !lookup_drop.
    replace (n + (k - n))%nat with k by lia.
    replace (n + S (k - n))%nat with (S k) by lia. auto.
  - inversion Hloop; subst. destruct Hscan as [Herr|Hlegal]; [exact Herr|].
    rewrite (Hlegal k a b) in Hill; [discriminate| |exact Ha|exact Hb].
    apply lookup_lt_Some in Hb. lia.
Qed.

Lemma Scan_badStart p fuel :
  badStart p = true ->
  forall s s' tok, scannerOk s -> bufio.Scan (split p) fuel s = Some (s', tok) ->
    tok = None /\ bufio.Err s' <> None.
Proof.
  intros Hbad.
  assert (Hsplit : forall data atEOF, split p data atEOF = Some (bufio.Fail (IllegalSyntax p))).
  { intros. unfold split. unfold badStart in Hbad. now rewrite Hbad. }
  induction fuel as [|fuel IH]; intros s s' tok Hgood Hscan; [discriminate|].
  cbn [bufio.Scan] in Hscan. rewrite Hsplit in Hscan.
  destruct (_ || _) eqn:Hcond.
  - inversion Hscan; subst. split; [reflexivity|].
    rewrite setErr_Err; [discriminate|exact Hgood|discriminate].
  - destruct (bufio.fill s) as [s1|s1] eqn:Hf.
    + inversion Hscan; subst. split; [reflexivity|].
      destruct (fill_inl s s' Hgood Hf) as [[He _]|He].
      * apply orb_false_iff in Hcond as [_ Hcond].
        rewrite He in Hcond. apply bool_decide_eq_false_1 in Hcond.
        destruct Hcond. eauto.
      * unfold bufio.Err. rewrite He. discriminate.
    + destruct (fill_inr s s1 Hgood Hf) as (Hg & _).
      eapply IH; eauto.
Qed.

Theorem Parse_total p : exists res, Parse p = Some res.
Proof.
  unfold Parse, ParseN.
  destruct (parseLoop_total p (S (String.length p)) (createPathScanner p)
              (MkPath None None "" PathTypeElement)) as [[s root] ->].
  - apply scannerOk_createPathScanner.
  - rewrite unconsumed_createPathScanner, length_list_ascii_of_string. lia.
  - rewrite unconsumed_createPathScanner, length_list_ascii_of_string. lia.
  - destruct (bufio.Err s); eauto.
Qed.

Lemma Parse_rejects_pair p :
  hasIllegalPair (list_ascii_of_string p) -> exists e, Parse p = Some (Err e).
Proof.
  intros Hbad. destruct (Parse_total p) as [res Hres]. rewrite Hres.
  unfold Parse, ParseN in Hres.
  destruct (parseLoop _ _ _ _) as [[s root]|] eqn:Hloop; [|discriminate].
  apply parseLoop_rejects in Hloop;
    [|apply scannerOk_createPathScanner|now rewrite unconsumed_createPathScanner].
  destruct (bufio.Err s) as [e|]; [|congruence].
  inversion Hres. eauto.
Qed.

Lemma Parse_rejects_badStart p :
  badStart p = true -> exists e, Parse p = Some (Err e).
Proof.
  intros Hbad. destruct (Parse_total p) as [res Hres]. rewrite Hres.
  unfold Parse, ParseN in Hres.
  destruct (parseLoop _ _ _ _) as [[s root]|] eqn:Hloop; [|discriminate].
  cbn [parseLoop] in Hloop.
  destruct (bufio.Scan (split p) _ _) as [[s1 tok]|] eqn:Hscan; [|discriminate].
  destruct (Scan_badStart p _ Hbad _ _ _ (scannerOk_createPathScanner p) Hscan) as [-> Herr].
  inversion Hloop; subst.
  destruct (bufio.Err s) as [e|]; [|congruence].
  inversion Hres. eauto.
Qed.

Lemma byteval_inj a b : byteval a = byteval b -> a = b.
Proof.
  unfold byteval. intros H. apply N2Z.inj in H.
  rewrite <- (ascii_N_embedding a), <- (ascii_N_embedding b). now rewrite H.
Qed.

Lemma byteval_neq a b : a <> b -> byteval a <> byteval b.
Proof. intros H Heq. now apply H, byteval_inj. Qed.

Lemma illegalSyntax_pair (a b : ascii) :
  (a = "."%char /\ b = "."%char)
  \/ (a = "."%char /\ (b = "["%char \/ b = "]"%char))
  \/ (a = "["%char /\ b = "."%char)
  \/ (a <> "["%char /\ b = "]"%char)
  \/ (a = "]"%char /\ b <> "."%char /\ b <> "["%char) ->
  illegalPair a b = true.
Proof.
  unfold illegalPair, isValidSyntax, dot, lbracket, rbracket.
  intros [[-> ->]|[[-> [->| ->]]|[[-> ->]|[[Ha ->]|[-> [Hb1 Hb2]]]]]];
    try reflexivity.
  - apply byteval_neq in Ha. change (byteval "["%char) with 91 in Ha.
    change (byteval "]"%char) with 93.
    destruct (Z.eqb_spec (byteval a) 46), (Z.eqb_spec (byteval a) 91); try lia; reflexivity.
  - apply byteval_neq in Hb1, Hb2.
    change (byteval "."%char) with 46 in Hb1. change (byteval "["%char) with 91 in Hb2.
    change (byteval "]"%char) with 93.
    destruct (Z.eqb_spec (byteval b) 46), (Z.eqb_spec (byteval b) 91),
      (Z.eqb_spec (byteval b) 93); try lia; reflexivity.
Qed.

(** ** Parsing *)

(** C1, as amended.  [Parse "a.b[].c"] returns the chain of the four steps
    [a], [b], unnamed, [c], whose kinds are Object, Array, Object, Element;
    [HasArray] is true on it and [Tail] is its last step, the element step
    [c]. *)
Theorem Parse_a_b_array_c :
  exists path,
    Parse "a.b[].c" = Some (Ok path)
    /\ List.map Name (steps path) = ["a"; "b"; ""; "c"]
    /\ kinds path = [PathTypeObject; PathTypeArray; PathTypeObject; PathTypeElement]
    /\ HasArray path = true
    /\ Tail path = MkPath None None "c" PathTypeElement.
Proof.
  eexists. split; [vm_compute; reflexivity|].
  split; [|split; [|split]]; reflexivity.
Qed.

(** C1, as stated, fails: the chain has four steps, not the five kinds
    Object, Object, Array, Object, Element. *)
Lemma Parse_a_b_array_c_kinds_counterexample :
  option_map (fun r => match r with Ok path => kinds path | Err _ => [] end)
             (Parse "a.b[].c")
  <> Some [PathTypeObject; PathTypeObject; PathTypeArray; PathTypeObject; PathTypeElement].
Proof. vm_compute. discriminate. Qed.

(** C8.  [Parse] rejects [.a], [a..b], [a[] and [a]b] with the error that
    carries the path, and accepts [a[].b].  In general the parse fails on a
    leading dot, on two dots in a row, on a dot next to a bracket (a dot
    followed by a bracket, an opening bracket followed by a dot), on a
    character that is not a name character immediately before a closing
    bracket, and on a closing bracket followed by anything but a dot, an
    opening bracket or the end of the path. *)
Theorem Parse_rejects_illegal_syntax :
  Parse ".a" = Some (Err (bufio.SplitError (IllegalSyntax ".a")))
  /\ Parse "a..b" = Some (Err (bufio.SplitError (IllegalSyntax "a..b")))
  /\ Parse "a[" = Some (Err (bufio.SplitError (IllegalSyntax "a[")))
  /\ Parse "a]b" = Some (Err (bufio.SplitError (IllegalSyntax "a]b")))
  /\ (exists path, Parse "a[].b" = Some (Ok path))
  /\ forall p, illegalSyntax p -> exists e, Parse p = Some (Err e).
Proof.
  repeat (split; [vm_compute; reflexivity|]).
  split; [eexists; vm_compute; reflexivity|].
  intros p [[tl ->]|(l1 & a & b & l2 & Hp & Hab)].
  - apply Parse_rejects_badStart. reflexivity.
  - apply Parse_rejects_pair.
    exists (List.length l1), a, b. rewrite Hp.
    split; [|split].
    + now rewrite lookup_app_r, Nat.sub_diag by lia.
    + rewrite lookup_app_r by lia.
      now replace (S (List.length l1) - List.length l1)%nat with 1%nat by lia.
    + now apply illegalSyntax_pair.
Qed.

Lemma Parse_rejects_illegal_syntax_witness :
  exists e, Parse "list.[]" = Some (Err e).
Proof.
  apply Parse_rejects_illegal_syntax.
  right. exists (list_ascii_of_string "list"), "."%char, "["%char, ["]"%char].
  split; [reflexivity|]. right. left. split; [reflexivity|]. left. reflexivity.
Defined.

(** C9.  In every chain that [Parse] returns, each step that is not an
    element has a successor and each element step has none; the chain ends
    with an element step. *)
Theorem Parse_chain_invariant p path :
  Parse p = Some (Ok path) ->
  Forall stepInvariant (steps path)
  /\ Type_ (Tail path) = PathTypeElement /\ Next (Tail path) = None.
Proof.
  intros H. apply ParseN_wellFormed in H.
  split; [now apply wellFormed_steps|].
  clear p. induction path as [idx name ty | nx idx name ty IH] using Path_chain_ind.
  - simpl in *. apply PathType_eqb_eq in H. auto.
  - simpl in *. apply andb_prop in H as [_ H]. auto.
Qed.

Lemma Parse_chain_invariant_witness :
  Forall stepInvariant (steps (MkPath (Some dotX) None "list" PathTypeArray))
  /\ Type_ (Tail (MkPath (Some dotX) None "list" PathTypeArray)) = PathTypeElement
  /\ Next (Tail (MkPath (Some dotX) None "list" PathTypeArray)) = None.
Proof.
  apply (Parse_chain_invariant "list[].x"). vm_compute. reflexivity.
Defined.

(** ** Date rules *)

Section DateRules.

Variable time_Parse : string -> string -> option Time.
Variable requireParametersCount : string -> list string -> nat -> outcome unit.

Lemma getDatesLoop_resolved form pre ds :
  Forall2 (resolves time_Parse form) pre ds ->
  forall rest dates,
    getDatesLoop time_Parse (pre ++ rest) form dates
    = getDatesLoop time_Parse rest form (dates ++ ds).
Proof.
  induction 1 as [|p d pre ds Hp _ IH]; intros rest dates.
  - now rewrite app_nil_r.
  - simpl. unfold resolves, dateLayout, dateTimeLayout in Hp.
    destruct (form !! p) as [other|].
    + destruct other; rewrite ?Hp, IH, <- app_assoc; reflexivity.
    + simpl. rewrite Hp, IH, <- app_assoc. reflexivity.
Qed.

Lemma validateRule_checked r field value parameters form :
  requireParametersCount (ruleName r) parameters (requiredParameters r) = Returns tt ->
  (forall e,
     getDates time_Parse value parameters form = Returns ([], Some e) ->
     validateRule time_Parse requireParametersCount r field value parameters form
     = Returns false)
  /\ (forall dates e,
        getDates time_Parse value parameters form = Returns (dates, Some e) ->
        validateRule time_Parse requireParametersCount r field value parameters form
        = Returns false)
  /\ (forall v,
        getDates time_Parse value parameters form = Panics v ->
        validateRule time_Parse requireParametersCount r field value parameters form
        = Panics v).
Proof.
  intros Hcount.
  repeat split; intros; destruct r; simpl in Hcount |- *;
    unfold validateBefore, validateBeforeEqual, validateAfter, validateAfterEqual,
      validateDateEquals, validateDateBetween;
    rewrite Hcount; simpl; rewrite H; reflexivity.
Qed.

(** C2, as amended.  A comparison rule whose parameter-count check passes
    returns false, without panic, when the value of the field is not a
    timestamp, whatever the parameters.  When the value of the field is a
    timestamp, the parameters are resolved in order and the first one that
    does not resolve decides: the rule returns false when that parameter
    names a form field whose value is neither a timestamp nor a string in
    the date layout, and it panics with the parse error when that parameter
    names no form field and is not a literal in the date-time layout. *)
Theorem date_rules_fail_closed r field value parameters form :
  requireParametersCount (ruleName r) parameters (requiredParameters r) = Returns tt ->
  ((forall t, value <> VTime t) ->
   validateRule time_Parse requireParametersCount r field value parameters form
   = Returns false)
  /\ (forall t pre ds p post other,
        value = VTime t -> parameters = pre ++ p :: post ->
        Forall2 (resolves time_Parse form) pre ds ->
        form !! p = Some other -> (forall u, other <> VTime u) ->
        (forall u, parseDate time_Parse other dateLayout <> Ok u) ->
        validateRule time_Parse requireParametersCount r field value parameters form
        = Returns false)
  /\ (forall t pre ds p post,
        value = VTime t -> parameters = pre ++ p :: post ->
        Forall2 (resolves time_Parse form) pre ds ->
        form !! p = None -> time_Parse dateTimeLayout p = None ->
        validateRule time_Parse requireParametersCount r field value parameters form
        = Panics (PanicError (TimeParseError dateTimeLayout p))).
Proof.
  intros Hcount.
  destruct (validateRule_checked r field value parameters form Hcount)
    as (_ & Herr & Hpanic).
  split; [|split].
  - intros Hnot. eapply Herr.
    destruct value; try reflexivity. now destruct (Hnot t).
  - intros t pre ds p post other -> -> Hpre Hp Hother Hparse.
    eapply Herr. unfold getDates.
    rewrite (getDatesLoop_resolved form pre ds Hpre). simpl. rewrite Hp.
    destruct other as [| | |str|u| |];
      try reflexivity; [|now destruct (Hother u)].
    unfold parseDate, dateLayout in *.
    destruct (time_Parse "2006-01-02" str) as [u|]; [|reflexivity].
    now destruct (Hparse u).
  - intros t pre ds p post -> -> Hpre Hp Hparse.
    apply Hpanic. unfold getDates.
    rewrite (getDatesLoop_resolved form pre ds Hpre). simpl. rewrite Hp.
    unfold dateTimeLayout in Hparse. now rewrite Hparse.
Qed.

(** C6.  With the field's timestamp [t] and the timestamps the parameters
    resolve to: [before] passes iff [t] is strictly less, [before_equal] iff
    less or equal, [after] iff strictly greater, [after_equal] iff greater or
    equal, [date_equals] iff equal, and [date_between] iff [t] lies between
    the two bounds, bounds included. *)
Theorem date_comparison_semantics field t form :
  (forall p u,
     requireParametersCount "before" [p] 1%nat = Returns tt ->
     requireParametersCount "before_equal" [p] 1%nat = Returns tt ->
     requireParametersCount "after" [p] 1%nat = Returns tt ->
     requireParametersCount "after_equal" [p] 1%nat = Returns tt ->
     requireParametersCount "date_equals" [p] 1%nat = Returns tt ->
     resolves time_Parse form p u ->
     validateBefore time_Parse requireParametersCount field (VTime t) [p] form
     = Returns (bool_decide (t < u))
     /\ validateBeforeEqual time_Parse requireParametersCount field (VTime t) [p] form
        = Returns (bool_decide (t <= u))
     /\ validateAfter time_Parse requireParametersCount field (VTime t) [p] form
        = Returns (bool_decide (t > u))
     /\ validateAfterEqual time_Parse requireParametersCount field (VTime t) [p] form
        = Returns (bool_decide (t >= u))
     /\ validateDateEquals time_Parse requireParametersCount field (VTime t) [p] form
        = Returns (bool_decide (t = u)))
  /\ (forall p0 p1 lo hi,
        requireParametersCount "date_between" [p0; p1] 2%nat = Returns tt ->
        resolves time_Parse form p0 lo -> resolves time_Parse form p1 hi ->
        validateDateBetween time_Parse requireParametersCount field (VTime t) [p0; p1] form
        = Returns (bool_decide (lo <= t <= hi))).
Proof.
  split.
  - intros p u H1 H2 H3 H4 H5 Hp.
    assert (Hd : getDates time_Parse (VTime t) [p] form = Returns ([t; u], None)).
    { unfold getDates.
      change [p] with ([p] ++ []).
      rewrite (getDatesLoop_resolved form [p] [u]); [reflexivity|].
      repeat constructor. exact Hp. }
    unfold validateBefore, validateBeforeEqual, validateAfter, validateAfterEqual,
      validateDateEquals, Before, After, Equal.
    rewrite H1, H2, H3, H4, H5, !Hd. simpl.
    repeat split; f_equal.
    + destruct (Z.ltb_spec t u); [rewrite bool_decide_eq_true_2 | rewrite bool_decide_eq_false_2]; auto; lia.
    + destruct (Z.ltb_spec t u), (Z.eqb_spec t u); simpl;
        [rewrite bool_decide_eq_true_2 | rewrite bool_decide_eq_true_2
        | rewrite bool_decide_eq_true_2 | rewrite bool_decide_eq_false_2]; auto; lia.
    + destruct (Z.ltb_spec u t); [rewrite bool_decide_eq_true_2 | rewrite bool_decide_eq_false_2]; auto; lia.
    + destruct (Z.ltb_spec u t), (Z.eqb_spec t u); simpl;
        [rewrite bool_decide_eq_true_2 | rewrite bool_decide_eq_true_2
        | rewrite bool_decide_eq_true_2 | rewrite bool_decide_eq_false_2]; auto; lia.
    + destruct (Z.eqb_spec t u); [rewrite bool_decide_eq_true_2 | rewrite bool_decide_eq_false_2]; auto.
  - intros p0 p1 lo hi H Hlo Hhi.
    assert (Hd : getDates time_Parse (VTime t) [p0; p1] form = Returns ([t; lo; hi], None)).
    { unfold getDates.
      change [p0; p1] with ([p0; p1] ++ []).
      rewrite (getDatesLoop_resolved form [p0; p1] [lo; hi]); [reflexivity|].
      repeat constructor; assumption. }
    unfold validateDateBetween, Before, After, Equal.
    rewrite H, Hd. simpl.
    destruct (Z.ltb_spec lo t), (Z.eqb_spec t lo), (Z.ltb_spec t hi), (Z.eqb_spec t hi);
      simpl; f_equal;
      first [ rewrite bool_decide_eq_true_2 by lia; reflexivity
            | rewrite bool_decide_eq_false_2 by lia; reflexivity ].
Qed.

(** C7.  The [date] rule parses the value with its first parameter as the
    layout, or with the date layout when it has no parameter.  When the value
    is a string that parses, the rule passes and the field holds the parsed
    timestamp afterwards; in every other case it fails and leaves the form as
    it was. *)
Theorem validateDate_coerces_or_leaves field value parameters form :
  let layout := hd dateLayout parameters in
  (forall str t,
     value = VStr str -> time_Parse layout str = Some t ->
     validateDate time_Parse field value parameters form
     = (true, <[field := VTime t]> form)
     /\ snd (validateDate time_Parse field value parameters form) !! field = Some (VTime t))
  /\ ((forall str, value = VStr str -> time_Parse layout str = None) ->
      validateDate time_Parse field value parameters form = (false, form)).
Proof.
  intros layout. unfold validateDate, parseDate. subst layout.
  destruct parameters as [|format rest]; simpl.
  - split.
    + intros str t -> Ht. unfold dateLayout in Ht. rewrite Ht.
      split; [reflexivity|]. simpl. apply lookup_insert_eq.
    + intros H. destruct value; try reflexivity.
      unfold dateLayout in H. now rewrite (H s eq_refl).
  - split.
    + intros str t -> Ht. rewrite Ht.
      split; [reflexivity|]. simpl. apply lookup_insert_eq.
    + intros H. destruct value; try reflexivity.
      now rewrite (H s eq_refl).
Qed.

End DateRules.

Lemma date_rules_fail_closed_witness :
  validateBefore time.Parse requireExactly "start" (VStr "2023-01-01") ["2023-06-01T00:00:00"] ∅
  = Returns false
  /\ validateBefore time.Parse requireExactly "start" (VTime newYear2023) ["end"]
       {["end" := VStr "June"]}
     = Returns false
  /\ validateBefore time.Parse requireExactly "start" (VTime newYear2023) ["2023-06-01"] ∅
     = Panics (PanicError (TimeParseError dateTimeLayout "2023-06-01")).
Proof.
  split; [|split].
  - apply (date_rules_fail_closed time.Parse requireExactly before "start"
             (VStr "2023-01-01") ["2023-06-01T00:00:00"] ∅ eq_refl).
    discriminate.
  - apply (date_rules_fail_closed time.Parse requireExactly before "start"
             (VTime newYear2023) ["end"] {["end" := VStr "June"]} eq_refl)
      with (t := newYear2023) (pre := []) (ds := []) (p := "end") (post := [])
           (other := VStr "June");
      try reflexivity; try discriminate; constructor.
  - apply (date_rules_fail_closed time.Parse requireExactly before "start"
             (VTime newYear2023) ["2023-06-01"] ∅ eq_refl)
      with (t := newYear2023) (pre := []) (ds := []) (post := []);
      try reflexivity; constructor.
Defined.

(** C2, as stated, fails: [before] on a field that holds a timestamp, with
    the parameter [2023-06-01], which names no form field and is not in the
    date-time layout, panics instead of returning false. *)
Lemma before_panics_counterexample :
  validateBefore time.Parse requireExactly "start" (VTime newYear2023) ["2023-06-01"]
                 {["start" := VTime newYear2023]}
  = Panics (PanicError (TimeParseError "2006-01-02T15:04:05" "2023-06-01")).
Proof. vm_compute. reflexivity. Qed.

Lemma date_comparison_semantics_witness :
  validateBefore time.Parse requireExactly "start" (VTime newYear2023) ["2023-06-01T00:00:00"] ∅
  = Returns true
  /\ validateDateBetween time.Parse requireExactly "start" (VTime newYear2023)
       ["2023-01-01T00:00:00"; "end"] {["end" := VStr "2023-01-01"]}
     = Returns true.
Proof.
  destruct (date_comparison_semantics time.Parse requireExactly "start" newYear2023 ∅)
    as [H1 _].
  destruct (date_comparison_semantics time.Parse requireExactly "start" newYear2023
              {["end" := VStr "2023-01-01"]}) as [_ H2].
  split.
  - destruct (H1 "2023-06-01T00:00:00" 1685577600000000000
                eq_refl eq_refl eq_refl eq_refl eq_refl) as [H _].
    + vm_compute. reflexivity.
    + rewrite H. reflexivity.
  - rewrite (H2 "2023-01-01T00:00:00" "end" newYear2023 newYear2023 eq_refl).
    + reflexivity.
    + vm_compute. reflexivity.
    + vm_compute. reflexivity.
Defined.

Lemma validateDate_coerces_or_leaves_witness :
  validateDate time.Parse "start" (VStr "2023-01-01") [] {["start" := VStr "2023-01-01"]}
  = (true, <["start" := VTime newYear2023]> {["start" := VStr "2023-01-01"]})
  /\ validateDate time.Parse "start" (VStr "01/01/2023") [] {["start" := VStr "01/01/2023"]}
     = (false, {["start" := VStr "01/01/2023"]}).
Proof.
  destruct (validateDate_coerces_or_leaves time.Parse "start" (VStr "2023-01-01") []
              {["start" := VStr "2023-01-01"]}) as [Hok _].
  destruct (validateDate_coerces_or_leaves time.Parse "start" (VStr "01/01/2023") []
              {["start" := VStr "01/01/2023"]}) as [_ Hfail].
  split.
  - apply (Hok "2023-01-01" newYear2023 eq_refl). vm_compute. reflexivity.
  - apply Hfail. intros str H. inversion H; subst. vm_compute. reflexivity.
Defined.

(** * Further properties *)

(** ** Chains and walks *)

Lemma noIndex_setTail f p :
  (forall name ty, noIndex (f (MkPath None None name ty)) = true) ->
  noIndex p = true -> noIndex (setTail f p) = true.
Proof.
  intros Hf.
  induction p as [idx name ty | nx idx name ty IH] using Path_chain_ind;
    simpl; intros H.
  - destruct idx; [discriminate|]. apply Hf.
  - destruct idx; [discriminate|]. simpl. now apply IH.
Qed.

Lemma noIndex_parseToken t name ty :
  noIndex (parseToken t (MkPath None None name ty)) = true.
Proof.
  unfold parseToken.
  destruct (String.eqb t "[]"); [destruct ty; reflexivity|].
  destruct (String.eqb t "."); destruct ty; reflexivity.
Qed.

Lemma parseLoop_noIndex fuel p :
  forall scanner rootPath scanner' rootPath',
    noIndex rootPath = true ->
    parseLoop fuel p scanner rootPath = Some (scanner', rootPath') ->
    noIndex rootPath' = true.
Proof.
  induction fuel as [|fuel IH]; intros scanner rootPath scanner' rootPath' Hb H.
  - discriminate.
  - cbn [parseLoop] in H.
    destruct (bufio.Scan (split p) _ scanner) as [[s1 [t|]]|]; [| |discriminate].
    + eapply IH; [|exact H].
      apply noIndex_setTail; [|exact Hb].
      intros; apply noIndex_parseToken.
    + now inversion H; subst.
Qed.

Lemma ParseN_noIndex fuel p path :
  ParseN fuel p = Some (Ok path) -> noIndex path = true.
Proof.
  unfold ParseN.
  destruct (parseLoop _ _ _ _) as [[scanner rootPath]|] eqn:Hloop; [|discriminate].
  destruct (bufio.Err scanner); [discriminate|].
  intros H. inversion H; subst.
  apply noIndex_setTail.
  - intros name ty. destruct ty; reflexivity.
  - eapply parseLoop_noIndex; [|exact Hloop]. reflexivity.
Qed.

Lemma noIndex_indexesInRange p : noIndex p = true -> indexesInRange p = true.
Proof.
  induction p as [idx name ty | nx idx name ty IH] using Path_chain_ind;
    simpl; destruct idx; try discriminate; auto.
Qed.

Lemma forEach_total body (l : list Value) :
  forall k,
    (forall (j : nat) e, l !! j = Some e -> exists cs, body e (k + Z.of_nat j) = Some cs) ->
    exists cs, forEach body l k = Some cs.
Proof.
  induction l as [|v l IH]; intros k Hbody; simpl; [eauto|].
  destruct (Hbody 0%nat v eq_refl) as [cs Hcs].
  rewrite Z.add_0_r in Hcs. rewrite Hcs.
  destruct (IH (k + 1)) as [cs' ->]; [|eauto].
  intros j e Hj. destruct (Hbody (S j) e Hj) as [c' Hc'].
  exists c'. rewrite <- Hc'. f_equal. lia.
Qed.

Lemma wellFormed_linked p : wellFormed p = true -> linked p = true.
Proof.
  induction p as [idx name ty | nx idx name ty IH] using Path_chain_ind;
    simpl; intros H; [exact H|].
  apply andb_prop in H as [_ H]. auto.
Qed.

Lemma walk_total p :
  linked p = true -> indexesInRange p = true ->
  forall e parent i path, exists cs, walk p e parent i path = Some cs.
Proof.
  induction p as [idx name ty | nx idx name ty IH] using Path_chain_ind;
    intros Hwf Hidx e parent i path.
  - simpl in Hwf. apply PathType_eqb_eq in Hwf. subst ty. cbn [walk].
    destruct (String.eqb name ""); [eauto|].
    destruct e; eauto. destruct (map_get name m); eauto.
  - simpl in Hwf, Hidx.
    apply andb_prop in Hidx as [Hi Hidx].
    specialize (IH Hwf Hidx).
    assert (Hstep : forall element parent' index,
      exists cs,
        match ty with
        | PathTypeElement =>
            Some [ {| ctxValue := element; ctxParent := parent'; ctxPath := path;
                      ctxName := name; ctxIndex := index; ctxNotFound := false |} ]
        | PathTypeArray =>
            match element with
            | VSlice list =>
                let length := Z.of_nat (List.length list) in
                if negb (PathType_eqb (Type_ nx) PathTypeElement) && (length =? 0)
                then Some [newNotFoundContext element path "" index]
                else
                  match idx with
                  | Some i =>
                      if i >=? length
                      then Some [newNotFoundContext element path "" i]
                      else if i <? 0 then None
                      else
                        match list !! Z.to_nat i with
                        | Some value =>
                            walk nx value element i
                                 (setTail (linkIndexNext idx nx) path)
                        | None => None
                        end
                  | None =>
                      forEach
                        (fun value i =>
                           walk nx value element i
                                (setTail (linkIndexNext (Some i) nx) (Clone path)))
                        list 0
                  end
            | _ => Some [newNotFoundContext parent' path name index]
            end
        | PathTypeObject => walk nx element parent' index (setTail (linkNext nx) path)
        end = Some cs).
    { intros element parent' index.
      destruct ty; [eauto| |apply IH].
      destruct element; eauto.
      cbv zeta. destruct (_ && _); [eauto|].
      destruct idx as [i0|].
      - destruct (Z.geb_spec i0 (Z.of_nat (List.length l))); [eauto|].
        apply Z.leb_le in Hi.
        destruct (Z.ltb_spec i0 0); [lia|].
        destruct (lookup_lt_is_Some_2 l (Z.to_nat i0)) as [v ->]; [lia|].
        apply IH.
      - apply forEach_total. intros j v _. apply IH. }
    cbn [walk].
    destruct (String.eqb name ""); [apply Hstep|].
    destruct e; eauto.
    destruct (map_get name m); [apply Hstep|eauto].
Qed.

(** X1.  [Parse] never gives a step a fixed index: in every chain it returns,
    [Index] is nil on every step. *)
Theorem Parse_sets_no_index p path :
  Parse p = Some (Ok path) -> Forall (fun s => Index s = None) (steps path).
Proof.
  intros H. apply ParseN_noIndex in H. clear p.
  induction path as [idx name ty | nx idx name ty IH] using Path_chain_ind;
    simpl in *; destruct idx; try discriminate.
  - constructor; [reflexivity|constructor].
  - constructor; [reflexivity|auto].
Qed.

Lemma Parse_sets_no_index_witness :
  Forall (fun s => Index s = None) (steps (MkPath (Some dotX) None "list" PathTypeArray)).
Proof. apply (Parse_sets_no_index "list[].x"). vm_compute. reflexivity. Defined.

(** X2.  [Walk] does not panic on a chain in which every step that is not an
    element has a successor and no fixed index is negative, whatever the data;
    in particular it does not panic on a chain returned by [Parse]. *)
Theorem Walk_never_panics :
  (forall p data,
     linked p = true -> indexesInRange p = true ->
     exists cs, Walk p data = Some cs)
  /\ (forall s path data,
        Parse s = Some (Ok path) -> exists cs, Walk path data = Some cs).
Proof.
  split.
  - intros p data Hwf Hidx. unfold Walk. now apply walk_total.
  - intros s path data H. unfold Walk. apply walk_total.
    + eapply wellFormed_linked, ParseN_wellFormed, H.
    + eapply noIndex_indexesInRange, ParseN_noIndex, H.
Qed.

Lemma Walk_never_panics_witness :
  (exists cs, Walk (MkPath (Some (MkPath None None "" PathTypeElement)) (Some 5) "list"
                           PathTypeArray) (VMap listOfXData) = Some cs)
  /\ (exists cs, Walk (MkPath (Some dotX) None "list" PathTypeArray) (VInt 3) = Some cs).
Proof.
  split.
  - apply Walk_never_panics; reflexivity.
  - apply (proj2 Walk_never_panics "list[].x"). vm_compute. reflexivity.
Defined.

(** X3.  Walking a well-formed chain without array step makes exactly one
    callback, whatever the data: it carries the value the chain resolves to,
    or is a not-found context when the chain does not resolve. *)
Theorem Walk_without_array_calls_once p data :
  wellFormed p = true -> HasArray p = false ->
  exists c, Walk p data = Some [c] /\ carries c (resolve p data).
Proof.
  intros Hwf Harr. unfold Walk.
  destruct (walk_without_array p Harr Hwf data VNil (-1)
              (MkPath None None (Name p) (Type_ p))) as (c & Hc & _ & Hcar).
  eauto.
Qed.

Lemma Walk_without_array_calls_once_witness :
  exists c,
    Walk (MkPath (Some (MkPath None None "b" PathTypeElement)) None "a" PathTypeObject)
         (VMap [("a", VMap [("b", VInt 7)])]) = Some [c]
    /\ carries c (Some (VInt 7)).
Proof.
  apply (Walk_without_array_calls_once
           (MkPath (Some (MkPath None None "b" PathTypeElement)) None "a" PathTypeObject)
           (VMap [("a", VMap [("b", VInt 7)])])); reflexivity.
Defined.

Lemma forEach_In body (l : list Value) :
  forall k cs c,
    forEach body l k = Some cs -> In c cs ->
    exists (j : nat) v cs', l !! j = Some v /\ body v (k + Z.of_nat j) = Some cs' /\ In c cs'.
Proof.
  induction l as [|v l IH]; intros k cs c H Hin; simpl in H.
  - inversion H; subst. destruct Hin.
  - destruct (body v k) as [cs1|] eqn:H1; [|discriminate].
    destruct (forEach body l (k + 1)) as [cs2|] eqn:H2; [|discriminate].
    inversion H; subst. apply in_app_or in Hin as [Hin|Hin].
    + exists 0%nat, v, cs1. rewrite Z.add_0_r. auto.
    + destruct (IH _ _ _ H2 Hin) as (j & v' & cs' & Hj & Hb & Hc).
      exists (S j), v', cs'. split; [exact Hj|]. split; [|exact Hc].
      rewrite <- Hb. f_equal. lia.
Qed.

Lemma walk_consistent p :
  forall e parent i path cs c,
    located e parent i ->
    walk p e parent i path = Some cs -> In c cs -> consistent c.
Proof.
  induction p as [idx name ty | nx idx name ty IH] using Path_chain_ind;
    intros e parent i path cs c Hloc Hwalk Hin.
  - cbn [walk] in Hwalk.
    destruct (String.eqb name "") eqn:Hname.
    + destruct ty.
      * inversion Hwalk; subst. destruct Hin as [<-|[]].
        unfold consistent. simpl. now rewrite Hname.
      * destruct e; inversion Hwalk; subst; destruct Hin as [<-|[]]; reflexivity.
      * discriminate.
    + destruct e; try (inversion Hwalk; subst; destruct Hin as [<-|[]]; reflexivity).
      destruct (map_get name m) as [element|] eqn:Hget;
        [|inversion Hwalk; subst; destruct Hin as [<-|[]]; reflexivity].
      destruct ty.
      * inversion Hwalk; subst. destruct Hin as [<-|[]].
        unfold consistent. simpl. rewrite Hname. eauto.
      * destruct element; inversion Hwalk; subst; destruct Hin as [<-|[]]; reflexivity.
      * discriminate.
  - assert (Hstep : forall element parent' index cs,
      located element parent' index ->
      match ty with
      | PathTypeElement =>
          Some [ {| ctxValue := element; ctxParent := parent'; ctxPath := path;
                    ctxName := name; ctxIndex := index; ctxNotFound := false |} ]
      | PathTypeArray =>
          match element with
          | VSlice list =>
              let length := Z.of_nat (List.length list) in
              if negb (PathType_eqb (Type_ nx) PathTypeElement) && (length =? 0)
              then Some [newNotFoundContext element path "" index]
              else
                match idx with
                | Some i =>
                    if i >=? length
                    then Some [newNotFoundContext element path "" i]
                    else if i <? 0 then None
                    else
                      match list !! Z.to_nat i with
                      | Some value =>
                          walk nx value element i
                               (setTail (linkIndexNext idx nx) path)
                      | None => None
                      end
                | None =>
                    forEach
                      (fun value i =>
                         walk nx value element i
                              (setTail (linkIndexNext (Some i) nx) (Clone path)))
                      list 0
                end
          | _ => Some [newNotFoundContext parent' path name index]
          end
      | PathTypeObject => walk nx element parent' index (setTail (linkNext nx) path)
      end = Some cs ->
      In c cs ->
      (ty = PathTypeElement -> String.eqb name "" = false ->
       index = -1 /\ exists m, parent' = VMap m /\ map_get name m = Some element) ->
      consistent c).
    { intros element parent' index cs0 Hloc' H0 Hin0 Hnamed.
      destruct ty.
      - inversion H0; subst. destruct Hin0 as [<-|[]].
        unfold consistent. simpl.
        destruct (String.eqb name "") eqn:Hname; [exact Hloc'|].
        now apply Hnamed.
      - destruct element;
          try (inversion H0; subst; destruct Hin0 as [<-|[]]; reflexivity).
        cbv zeta in H0.
        destruct (_ && _);
          [inversion H0; subst; destruct Hin0 as [<-|[]]; reflexivity|].
        destruct idx as [i0|].
        + destruct (Z.geb_spec i0 (Z.of_nat (List.length l)));
            [inversion H0; subst; destruct Hin0 as [<-|[]]; reflexivity|].
          destruct (Z.ltb_spec i0 0); [discriminate|].
          destruct (l !! Z.to_nat i0) as [v|] eqn:Hv; [|discriminate].
          eapply IH; [|exact H0|exact Hin0].
          right. exists l. auto.
        + destruct (forEach_In _ _ _ _ _ H0 Hin0) as (j & v & cs' & Hj & Hb & Hc).
          eapply IH; [|exact Hb|exact Hc].
          right. exists l. rewrite Z.add_0_l, Nat2Z.id. split; [reflexivity|].
          split; [lia|exact Hj].
      - eapply IH; [exact Hloc'|exact H0|exact Hin0]. }
    cbn [walk] in Hwalk.
    destruct (String.eqb name "") eqn:Hname.
    + eapply Hstep; [exact Hloc|exact Hwalk|exact Hin|]. intros _ [=].
    + destruct e; try (inversion Hwalk; subst; destruct Hin as [<-|[]]; reflexivity).
      destruct (map_get name m) as [element|] eqn:Hget;
        [|inversion Hwalk; subst; destruct Hin as [<-|[]]; reflexivity].
      eapply Hstep; [left; reflexivity|exact Hwalk|exact Hin|].
      intros _ _. eauto.
Qed.

(** X4.  When [Walk] returns, that is, does not panic, every context it has
    handed to the callback is consistent: a not-found context has a nil
    value; a found context reached by name has the mapping it was read from
    as parent, holds the value stored under that name, and has index -1; a
    found context without name either has index -1 or has the sequence it
    was taken from as parent and its position there as index. *)
Theorem Walk_contexts_consistent p data cs c :
  Walk p data = Some cs -> In c cs -> consistent c.
Proof.
  unfold Walk. intros H Hin.
  eapply walk_consistent; [|exact H|exact Hin]. left. reflexivity.
Qed.

Lemma Walk_contexts_consistent_witness :
  consistent {| ctxValue := VInt 2; ctxParent := VMap [("x", VInt 2)];
                ctxPath := MkPath (Some dotX) (Some 1) "list" PathTypeArray;
                ctxName := "x"; ctxIndex := -1; ctxNotFound := false |}.
Proof.
  apply (Walk_contexts_consistent (MkPath (Some dotX) None "list" PathTypeArray)
           (VMap listOfXData)
           [ {| ctxValue := VInt 1; ctxParent := VMap [("x", VInt 1)];
                ctxPath := MkPath (Some dotX) (Some 0) "list" PathTypeArray;
                ctxName := "x"; ctxIndex := -1; ctxNotFound := false |};
             {| ctxValue := VInt 2; ctxParent := VMap [("x", VInt 2)];
                ctxPath := MkPath (Some dotX) (Some 1) "list" PathTypeArray;
                ctxName := "x"; ctxIndex := -1; ctxNotFound := false |};
             {| ctxValue := VInt 3; ctxParent := VMap [("x", VInt 3)];
                ctxPath := MkPath (Some dotX) (Some 2) "list" PathTypeArray;
                ctxName := "x"; ctxIndex := -1; ctxNotFound := false |} ]).
  - vm_compute. reflexivity.
  - simpl. right. left. reflexivity.
Defined.

Lemma shape_setTail_link f nx path :
  (forall t, Next t = None ->
     Name (f t) = Name t /\ Type_ (f t) = Type_ t
     /\ Next (f t) = Some (MkPath None None (Name nx) (Type_ nx))) ->
  shape (setTail f path) = shape path ++ [(Name nx, Type_ nx)].
Proof.
  intros Hf.
  induction path as [idx name ty | q idx name ty IH] using Path_chain_ind.
  - simpl. destruct (Hf (MkPath None idx name ty) eq_refl) as (Hn & Ht & Hx).
    destruct (f (MkPath None idx name ty)) as [next' idx' name' ty'].
    simpl in *. subst. reflexivity.
  - simpl. now rewrite IH.
Qed.

Lemma shape_linkNext nx path :
  shape (setTail (linkNext nx) path) = shape path ++ [(Name nx, Type_ nx)].
Proof. apply shape_setTail_link. intros t _. destruct t; auto. Qed.

Lemma shape_linkIndexNext idx nx path :
  shape (setTail (linkIndexNext idx nx) path) = shape path ++ [(Name nx, Type_ nx)].
Proof. apply shape_setTail_link. intros t _. destruct t; auto. Qed.

Lemma shape_head p : exists tl, shape p = (Name p, Type_ p) :: tl.
Proof. destruct p as [next idx name ty]. simpl. eauto. Qed.

Lemma walk_path_shape p :
  forall e parent i path pre cs c,
    shape path = pre ++ [(Name p, Type_ p)] ->
    walk p e parent i path = Some cs -> In c cs ->
    (exists k, (1 <= k)%nat /\ shape (ctxPath c) = pre ++ take k (shape p))
    /\ (wellFormed p = true -> ctxNotFound c = false ->
        shape (ctxPath c) = pre ++ shape p).
Proof.
  induction p as [idx name ty | nx idx name ty IH] using Path_chain_ind;
    intros e parent i path pre cs c Hshape Hwalk Hin.
  - assert (Hhere : ctxPath c = path).
    { cbn [walk] in Hwalk.
      destruct (String.eqb name "").
      - destruct ty; [| |discriminate].
        + inversion Hwalk; subst. now destruct Hin as [<-|[]].
        + destruct e; inversion Hwalk; subst; now destruct Hin as [<-|[]].
      - destruct e; try (inversion Hwalk; subst; now destruct Hin as [<-|[]]).
        destruct (map_get name m);
          [|inversion Hwalk; subst; now destruct Hin as [<-|[]]].
        destruct ty; [| |discriminate].
        + inversion Hwalk; subst. now destruct Hin as [<-|[]].
        + destruct v; inversion Hwalk; subst; now destruct Hin as [<-|[]]. }
    rewrite Hhere, Hshape. simpl. split; [exists 1%nat; auto|auto].
  - assert (Hrec : forall e' parent' i' path' cs',
      shape path' = (pre ++ [(name, ty)]) ++ [(Name nx, Type_ nx)] ->
      walk nx e' parent' i' path' = Some cs' -> In c cs' ->
      (exists k, (1 <= k)%nat
                 /\ shape (ctxPath c) = pre ++ take k (shape (MkPath (Some nx) idx name ty)))
      /\ (wellFormed (MkPath (Some nx) idx name ty) = true -> ctxNotFound c = false ->
          shape (ctxPath c) = pre ++ shape (MkPath (Some nx) idx name ty))).
    { intros e' parent' i' path' cs' Hs' Hw' Hin'.
      destruct (IH _ _ _ _ _ _ _ Hs' Hw' Hin') as [(k & Hk & Hpre) Hfull].
      split.
      - exists (S k). split; [lia|]. rewrite Hpre, <- app_assoc. reflexivity.
      - intros Hwf Hfound. simpl in Hwf. apply andb_prop in Hwf as [_ Hwf].
        rewrite (Hfull Hwf Hfound), <- app_assoc. reflexivity. }
    assert (Hhere : ctxPath c = path ->
      ctxNotFound c = true \/ ty = PathTypeElement ->
      (exists k, (1 <= k)%nat
                 /\ shape (ctxPath c) = pre ++ take k (shape (MkPath (Some nx) idx name ty)))
      /\ (wellFormed (MkPath (Some nx) idx name ty) = true -> ctxNotFound c = false ->
          shape (ctxPath c) = pre ++ shape (MkPath (Some nx) idx name ty))).
    { intros -> Hcase. rewrite Hshape. split; [exists 1%nat; auto|].
      intros Hwf Hfound. destruct Hcase as [Hnf| ->]; [congruence|].
      simpl in Hwf. discriminate. }
    simpl in Hshape.
    assert (Hstep : forall element parent' index cs0,
      match ty with
      | PathTypeElement =>
          Some [ {| ctxValue := element; ctxParent := parent'; ctxPath := path;
                    ctxName := name; ctxIndex := index; ctxNotFound := false |} ]
      | PathTypeArray =>
          match element with
          | VSlice list =>
              let length := Z.of_nat (List.length list) in
              if negb (PathType_eqb (Type_ nx) PathTypeElement) && (length =? 0)
              then Some [newNotFoundContext element path "" index]
              else
                match idx with
                | Some i =>
                    if i >=? length
                    then Some [newNotFoundContext element path "" i]
                    else if i <? 0 then None
                    else
                      match list !! Z.to_nat i with
                      | Some value =>
                          walk nx value element i
                               (setTail (linkIndexNext idx nx) path)
                      | None => None
                      end
                | None =>
                    forEach
                      (fun value i =>
                         walk nx value element i
                              (setTail (linkIndexNext (Some i) nx) (Clone path)))
                      list 0
                end
          | _ => Some [newNotFoundContext parent' path name index]
          end
      | PathTypeObject => walk nx element parent' index (setTail (linkNext nx) path)
      end = Some cs0 ->
      In c cs0 ->
      (exists k, (1 <= k)%nat
                 /\ shape (ctxPath c) = pre ++ take k (shape (MkPath (Some nx) idx name ty)))
      /\ (wellFormed (MkPath (Some nx) idx name ty) = true -> ctxNotFound c = false ->
          shape (ctxPath c) = pre ++ shape (MkPath (Some nx) idx name ty))).
    { intros element parent' index cs0 H0 Hin0.
      destruct ty.
      - inversion H0; subst. destruct Hin0 as [<-|[]]. apply Hhere; auto.
      - destruct element;
          try (inversion H0; subst; destruct Hin0 as [<-|[]]; apply Hhere; auto).
        cbv zeta in H0.
        destruct (_ && _);
          [inversion H0; subst; destruct Hin0 as [<-|[]]; apply Hhere; auto|].
        destruct idx as [i0|].
        + destruct (i0 >=? _);
            [inversion H0; subst; destruct Hin0 as [<-|[]]; apply Hhere; auto|].
          destruct (i0 <? 0); [discriminate|].
          destruct (l !! Z.to_nat i0) as [v|]; [|discriminate].
          eapply Hrec; [|exact H0|exact Hin0].
          now rewrite shape_linkIndexNext, Hshape.
        + destruct (forEach_In _ _ _ _ _ H0 Hin0) as (j & v & cs' & Hj & Hb & Hc).
          eapply Hrec; [|exact Hb|exact Hc].
          now rewrite shape_linkIndexNext, Clone_same, Hshape.
      - eapply Hrec; [|exact H0|exact Hin0].
        now rewrite shape_linkNext, Hshape. }
    cbn [walk] in Hwalk.
    destruct (String.eqb name "").
    + eapply Hstep; eauto.
    + destruct e;
        try (inversion Hwalk; subst; destruct Hin as [<-|[]]; apply Hhere; auto).
      destruct (map_get name m);
        [|inversion Hwalk; subst; destruct Hin as [<-|[]]; apply Hhere; auto].
      eapply Hstep; eauto.
Qed.

(** X5.  When [Walk] returns, that is, does not panic, the path of every
    context it has handed to the callback names a beginning of the walked
    chain: its steps have the names and kinds of the first steps of the
    chain, at least the first one; for a found context of a well-formed
    chain they are the names and kinds of the whole chain. *)
Theorem Walk_context_path_shape p data cs c :
  Walk p data = Some cs -> In c cs ->
  (exists k, (1 <= k)%nat /\ shape (ctxPath c) = take k (shape p))
  /\ (wellFormed p = true -> ctxNotFound c = false -> shape (ctxPath c) = shape p).
Proof.
  unfold Walk. intros H Hin.
  apply (walk_path_shape p data VNil (-1) (MkPath None None (Name p) (Type_ p)) [] cs c);
    auto.
Qed.

Lemma Walk_context_path_shape_witness :
  (exists k, (1 <= k)%nat
             /\ shape (MkPath (Some dotX) (Some 1) "list" PathTypeArray)
                = take k (shape (MkPath (Some dotX) None "list" PathTypeArray)))
  /\ (wellFormed (MkPath (Some dotX) None "list" PathTypeArray) = true ->
      false = false ->
      shape (MkPath (Some dotX) (Some 1) "list" PathTypeArray)
      = shape (MkPath (Some dotX) None "list" PathTypeArray)).
Proof.
  apply (Walk_context_path_shape (MkPath (Some dotX) None "list" PathTypeArray)
           (VMap listOfXData)
           [ {| ctxValue := VInt 1; ctxParent := VMap [("x", VInt 1)];
                ctxPath := MkPath (Some dotX) (Some 0) "list" PathTypeArray;
                ctxName := "x"; ctxIndex := -1; ctxNotFound := false |};
             {| ctxValue := VInt 2; ctxParent := VMap [("x", VInt 2)];
                ctxPath := MkPath (Some dotX) (Some 1) "list" PathTypeArray;
                ctxName := "x"; ctxIndex := -1; ctxNotFound := false |};
             {| ctxValue := VInt 3; ctxParent := VMap [("x", VInt 3)];
                ctxPath := MkPath (Some dotX) (Some 2) "list" PathTypeArray;
                ctxName := "x"; ctxIndex := -1; ctxNotFound := false |} ]
           {| ctxValue := VInt 2; ctxParent := VMap [("x", VInt 2)];
              ctxPath := MkPath (Some dotX) (Some 1) "list" PathTypeArray;
              ctxName := "x"; ctxIndex := -1; ctxNotFound := false |}).
  - vm_compute. reflexivity.
  - simpl. right. left. reflexivity.
Defined.






(** X8.  On a well-formed chain [LastParent] is nil exactly when the chain
    is a single step, and otherwise it is the step of the chain whose
    successor is the last step, the final element; on a chain of two steps
    that is the first step. *)
Theorem LastParent_precedes_Tail p :
  wellFormed p = true ->
  match LastParent p with
  | Some q => In q (steps p) /\ Next q = Some (Tail p) /\ Type_ q <> PathTypeElement
  | None => Next p = None
  end.
Proof.
  induction p as [idx name ty | nx idx name ty IH] using Path_chain_ind;
    intros Hwf; [reflexivity|].
  simpl in Hwf. apply andb_prop in Hwf as [Hty Hwf].
  cbn [LastParent].
  destruct (PathType_eqb (Type_ nx) PathTypeElement) eqn:E.
  - apply PathType_eqb_eq in E.
    split; [simpl; auto|]. split.
    + simpl. f_equal. destruct nx as [[q|] i n t]; simpl in *; [|reflexivity].
      subst t. discriminate.
    + simpl. intros ->. discriminate.
  - specialize (IH Hwf). destruct (LastParent nx) as [q|].
    + destruct IH as (Hin & Hnext & Hq). split; [simpl; auto|]. auto.
    + destruct nx as [[q|] i n t]; simpl in *; [discriminate|].
      rewrite Hwf in E. discriminate.
Qed.

Lemma LastParent_precedes_Tail_witness :
  match LastParent (MkPath (Some dotX) None "list" PathTypeArray) with
  | Some q => In q (steps (MkPath (Some dotX) None "list" PathTypeArray))
              /\ Next q = Some (Tail (MkPath (Some dotX) None "list" PathTypeArray))
              /\ Type_ q <> PathTypeElement
  | None => Next (MkPath (Some dotX) None "list" PathTypeArray) = None
  end.
Proof.
  apply (LastParent_precedes_Tail (MkPath (Some dotX) None "list" PathTypeArray)).
  reflexivity.
Defined.

(** ** Date rules, continued *)

Section MoreDateRules.

Variable time_Parse : string -> string -> option Time.
Variable requireParametersCount : string -> list string -> nat -> outcome unit.





Lemma getDatesLoop_coerced parameters form g str u :
  form !! g = Some (VStr str) -> time_Parse "2006-01-02" str = Some u ->
  forall dates,
    getDatesLoop time_Parse parameters (<[g := VTime u]> form) dates
    = getDatesLoop time_Parse parameters form dates.
Proof.
  intros Hg Hu. induction parameters as [|p ps IH]; intros dates; [reflexivity|].
  simpl. destruct (decide (g = p)) as [<-|Hne].
  - rewrite lookup_insert_eq, Hg. simpl. rewrite Hu. apply IH.
  - rewrite lookup_insert_ne by exact Hne.
    destruct (form !! p) as [other|].
    + destruct other; simpl; rewrite ?IH; try reflexivity.
      destruct (time_Parse "2006-01-02" s); [apply IH|reflexivity].
    + simpl. destruct (time_Parse "2006-01-02T15:04:05" p); [apply IH|reflexivity].
Qed.

(** X10.  The [date] rule with the default layout, run on a sibling field
    that holds a string, does not change what a comparison rule answers:
    the verdict (or panic) of every comparison rule is the same on the form
    as [validateDate] leaves it as on the form before. *)
Theorem comparison_unchanged_by_default_coercion r field value parameters form g str :
  form !! g = Some (VStr str) ->
  validateRule time_Parse requireParametersCount r field value parameters
               (snd (validateDate time_Parse g (VStr str) [] form))
  = validateRule time_Parse requireParametersCount r field value parameters form.
Proof.
  intros Hg. unfold validateDate, parseDate.
  destruct (time_Parse "2006-01-02" str) as [u|] eqn:Hu; [|reflexivity].
  cbn [snd].
  assert (Hd : getDates time_Parse value parameters (<[g := VTime u]> form)
               = getDates time_Parse value parameters form).
  { unfold getDates. destruct value; try reflexivity.
    now apply getDatesLoop_coerced with (str := str). }
  destruct r; simpl;
    unfold validateBefore, validateBeforeEqual, validateAfter, validateAfterEqual,
      validateDateEquals, validateDateBetween;
    now rewrite Hd.
Qed.

(** X11.  [validateDate] writes to no field but its own, and it cannot be
    run twice: once it has stored the timestamp, running it on the stored
    value fails and leaves the form as it is. *)
Theorem validateDate_frame_and_rerun field value parameters form :
  (forall k, k <> field ->
     snd (validateDate time_Parse field value parameters form) !! k = form !! k)
  /\ (forall t,
        snd (validateDate time_Parse field value parameters form) !! field
        = Some (VTime t) ->
        validateDate time_Parse field (VTime t) parameters
                     (snd (validateDate time_Parse field value parameters form))
        = (false, snd (validateDate time_Parse field value parameters form))).
Proof.
  split.
  - intros k Hk. unfold validateDate.
    destruct (parseDate time_Parse value _); simpl; [|reflexivity].
    now rewrite lookup_insert_ne.
  - intros t _. reflexivity.
Qed.

(** X12.  For a field timestamp and a parameter that resolves to a
    timestamp, exactly one of [before], [date_equals] and [after] passes;
    [before_equal] passes exactly when [after] fails, and [after_equal]
    exactly when [before] fails. *)
Theorem date_rules_trichotomy field t p u form :
  requireParametersCount "before" [p] 1%nat = Returns tt ->
  requireParametersCount "before_equal" [p] 1%nat = Returns tt ->
  requireParametersCount "after" [p] 1%nat = Returns tt ->
  requireParametersCount "after_equal" [p] 1%nat = Returns tt ->
  requireParametersCount "date_equals" [p] 1%nat = Returns tt ->
  resolves time_Parse form p u ->
  exists b e a,
    validateBefore time_Parse requireParametersCount field (VTime t) [p] form = Returns b
    /\ validateDateEquals time_Parse requireParametersCount field (VTime t) [p] form
       = Returns e
    /\ validateAfter time_Parse requireParametersCount field (VTime t) [p] form = Returns a
    /\ validateBeforeEqual time_Parse requireParametersCount field (VTime t) [p] form
       = Returns (negb a)
    /\ validateAfterEqual time_Parse requireParametersCount field (VTime t) [p] form
       = Returns (negb b)
    /\ ((b = true /\ e = false /\ a = false)
        \/ (b = false /\ e = true /\ a = false)
        \/ (b = false /\ e = false /\ a = true)).
Proof.
  intros H1 H2 H3 H4 H5 Hp.
  assert (Hd : getDates time_Parse (VTime t) [p] form = Returns ([t; u], None)).
  { unfold getDates. change [p] with ([p] ++ []).
    rewrite (getDatesLoop_resolved time_Parse form [p] [u]); [reflexivity|].
    repeat constructor. exact Hp. }
  exists (t <? u), (t =? u), (u <? t).
  unfold validateBefore, validateBeforeEqual, validateAfter, validateAfterEqual,
    validateDateEquals, Before, After, Equal.
  rewrite H1, H2, H3, H4, H5, !Hd. simpl.
  destruct (Z.ltb_spec t u), (Z.eqb_spec t u), (Z.ltb_spec u t); try lia;
    repeat split; auto.
Qed.

End MoreDateRules.


Lemma comparison_unchanged_by_default_coercion_witness :
  validateRule time.Parse requireExactly before "start" (VTime newYear2023) ["end"]
               (snd (validateDate time.Parse "end" (VStr "2023-06-01") []
                                  {["end" := VStr "2023-06-01"]}))
  = validateRule time.Parse requireExactly before "start" (VTime newYear2023) ["end"]
                 {["end" := VStr "2023-06-01"]}.
Proof.
  apply (comparison_unchanged_by_default_coercion time.Parse requireExactly before "start"
           (VTime newYear2023) ["end"] {["end" := VStr "2023-06-01"]} "end" "2023-06-01").
  reflexivity.
Defined.

Lemma validateDate_frame_and_rerun_witness :
  snd (validateDate time.Parse "start" (VStr "2023-01-01") []
                    {["start" := VStr "2023-01-01"; "end" := VStr "2023-06-01"]})
      !! "end" = Some (VStr "2023-06-01")
  /\ validateDate time.Parse "start" (VTime newYear2023) []
        (snd (validateDate time.Parse "start" (VStr "2023-01-01") []
                {["start" := VStr "2023-01-01"; "end" := VStr "2023-06-01"]}))
     = (false,
        snd (validateDate time.Parse "start" (VStr "2023-01-01") []
               {["start" := VStr "2023-01-01"; "end" := VStr "2023-06-01"]})).
Proof.
  destruct (validateDate_frame_and_rerun time.Parse "start" (VStr "2023-01-01") []
              {["start" := VStr "2023-01-01"; "end" := VStr "2023-06-01"]})
    as [Hframe Hrerun].
  split.
  - rewrite (Hframe "end"); [reflexivity|discriminate].
  - apply Hrerun. vm_compute. reflexivity.
Defined.

Lemma date_rules_trichotomy_witness :
  exists b e a,
    validateBefore time.Parse requireExactly "start" (VTime newYear2023) ["end"]
                   {["end" := VStr "2023-06-01"]} = Returns b
    /\ validateDateEquals time.Parse requireExactly "start" (VTime newYear2023) ["end"]
                          {["end" := VStr "2023-06-01"]} = Returns e
    /\ validateAfter time.Parse requireExactly "start" (VTime newYear2023) ["end"]
                     {["end" := VStr "2023-06-01"]} = Returns a
    /\ validateBeforeEqual time.Parse requireExactly "start" (VTime newYear2023) ["end"]
                           {["end" := VStr "2023-06-01"]} = Returns (negb a)
    /\ validateAfterEqual time.Parse requireExactly "start" (VTime newYear2023) ["end"]
                          {["end" := VStr "2023-06-01"]} = Returns (negb b)
    /\ ((b = true /\ e = false /\ a = false)
        \/ (b = false /\ e = true /\ a = false)
        \/ (b = false /\ e = false /\ a = true)).
Proof.
  apply (date_rules_trichotomy time.Parse requireExactly "start" newYear2023 "end"
           1685577600000000000 {["end" := VStr "2023-06-01"]});
    reflexivity.
Defined.

(** ** Short paths *)

Lemma isValidSyntax_before_dot x :
  isValidSyntax x dot = true <-> x = dot \/ x = lbracket.
Proof.
  unfold isValidSyntax, dot, lbracket, rbracket.
  destruct (Z.eqb_spec x 46), (Z.eqb_spec x 91), (Z.eqb_spec x 93); simpl;
    split; intros H; try discriminate; try reflexivity; try lia; auto;
    destruct H; lia.
Qed.

(** At the last rune of [data], the test of the loop on that rune is the
    test on the last byte. *)
Lemma last_rune_test (data : list ascii) i c r w :
  data !! i = Some c -> DecodeRune (drop i data) = (r, w) ->
  (List.length data <= i + w)%nat ->
  ((r =? dot) || (r =? lbracket) = false <-> lastOk data).
Proof.
  intros Hc Hdec Hend.
  destruct (rune_pairs data i c r w Hc Hdec) as (Hw & Hlen & _ & Hlast).
  assert (Hlen' : (i + w = List.length data)%nat) by lia.
  destruct (lookup_lt_is_Some_2 data (i + w - 1)) as [a Ha]; [lia|].
  assert (Hla : last data = Some a).
  { rewrite last_lookup. rewrite <- Ha. f_equal. lia. }
  assert (Heq : (r = dot \/ r = lbracket) <-> (byteval a = dot \/ byteval a = lbracket)).
  { rewrite <- !isValidSyntax_before_dot, (Hlast a dot Ha). reflexivity. }
  unfold lastOk. rewrite Hla. split.
  - intros Htest c0 [= <-]. apply orb_false_iff in Htest as [H1 H2].
    apply Z.eqb_neq in H1, H2. tauto.
  - intros Hok. destruct (Hok a eq_refl) as [H1 H2].
    apply orb_false_iff. split; apply Z.eqb_neq; tauto.
Qed.

Lemma splitLoop_end fuel path data :
  forall i exit,
    (i < List.length data)%nat ->
    splitLoop fuel path data i = Some exit ->
    match exit with
    | Fallthrough => lastOk data
    | Return (bufio.Fail _) => ~ legalRest data
    | Return _ => True
    end.
Proof.
  induction fuel as [|fuel IH]; intros i exit Hi Hloop.
  - cbn [splitLoop] in Hloop. apply Nat.ltb_lt in Hi. rewrite Hi in Hloop. discriminate.
  - cbn [splitLoop] in Hloop. pose proof Hi as Hi'. apply Nat.ltb_lt in Hi'.
    rewrite Hi' in Hloop.
    destruct (lookup_lt_is_Some_2 data i Hi) as [c Hc].
    destruct (DecodeRune (drop i data)) as [r w] eqn:Hdec.
    destruct (rune_pairs data i c r w Hc Hdec) as (Hw & Hlen & Hin & Hlast).
    destruct (i + w <? List.length data)%nat eqn:Hnext.
    + apply Nat.ltb_lt in Hnext.
      destruct (lookup_lt_is_Some_2 data (i + w) Hnext) as [c' Hc'].
      destruct (lookup_lt_is_Some_2 data (i + w - 1)) as [a Ha]; [lia|].
      destruct (DecodeRune (drop (i + w) data)) as [next w'] eqn:Hdec'.
      assert (Hchk : isValidSyntax r next = illegalPair a c').
      { unfold illegalPair. rewrite (Hlast a next Ha).
        apply (DecodeRune_head data (i + w) c' next w' _ Hc' Hdec'). }
      destruct (isValidSyntax r next) eqn:Hsyn.
      { inversion Hloop; subst. intros [Hpairs _].
        rewrite (Hpairs (i + w - 1)%nat a c') in Hchk; [discriminate|exact Ha|].
        rewrite <- Hc'. f_equal. lia. }
      destruct ((r =? dot) && (i =? 0)%nat); [inversion Hloop; subst; exact I|].
      destruct ((next =? dot) || (next =? lbracket)); [inversion Hloop; subst; exact I|].
      apply (IH (i + w)%nat exit Hnext Hloop).
    + apply Nat.ltb_ge in Hnext.
      pose proof (last_rune_test data i c r w Hc Hdec Hnext) as Htest.
      destruct ((r =? dot) || (r =? lbracket)) eqn:E.
      { inversion Hloop; subst. intros [_ Hok]. apply Htest in Hok. discriminate. }
      assert (Hfall : splitLoop fuel path data (i + w) = Some Fallthrough).
      { destruct fuel; cbn [splitLoop];
          (destruct (i + w <? List.length data)%nat eqn:E'; [apply Nat.ltb_lt in E'; lia|]);
          reflexivity. }
      rewrite Hfall in Hloop. inversion Hloop; subst. now apply Htest.
Qed.

Lemma split_end p data atEOF res :
  split p data atEOF = Some res -> splitEndSpec p data atEOF res.
Proof.
  unfold split. destruct (_ || _) eqn:Hstart.
  { intros [= <-]. simpl. unfold badStart. congruence. }
  destruct (splitLoop _ _ _ _) as [exit|] eqn:Hloop; [|discriminate].
  destruct data as [|c data].
  { destruct exit as [res'|].
    - cbn [splitLoop] in Hloop. simpl in Hloop. discriminate.
    - destruct atEOF; simpl; intros [= <-]; simpl; congruence. }
  pose proof (splitLoop_sound _ _ _ _ _ (pairsLegal_0 _) Hloop) as Hsound.
  apply splitLoop_end in Hloop; [|simpl; lia].
  destruct exit as [res'|].
  - intros [= <-]. destruct res' as [n tok| |e]; simpl in *.
    + intros ->. lia.
    + contradiction.
    + intros _. exact Hloop.
  - destruct (atEOF && _); intros [= <-]; simpl; auto.
Qed.

Lemma legalRest_drop (l : list ascii) n : legalRest l -> legalRest (drop n l).
Proof.
  intros [Hpairs Hlast]. split.
  - intros k a b Ha Hb. rewrite lookup_drop in Ha, Hb.
    apply (Hpairs (n + k)%nat); [exact Ha|]. rewrite <- Hb. f_equal. lia.
  - intros c Hc. apply Hlast. rewrite last_lookup in *.
    rewrite lookup_drop, length_drop in Hc.
    destruct (decide (n < List.length l)%nat) as [Hn|Hn].
    + rewrite <- Hc. f_equal. lia.
    + apply lookup_lt_Some in Hc. lia.
Qed.

Lemma lastOk_drop (l : list ascii) n :
  (n < List.length l)%nat -> lastOk (drop n l) -> lastOk l.
Proof.
  intros Hn H c Hc. apply H. rewrite last_lookup in *.
  rewrite lookup_drop, length_drop. rewrite <- Hc. f_equal. lia.
Qed.

Lemma startBufSize_lt_Max : (bufio.startBufSize < bufio.MaxScanTokenSize)%nat.
Proof.
  unfold bufio.startBufSize, bufio.MaxScanTokenSize.
  assert (H : forall a b, 0 <= a < b -> (Z.to_nat a < Z.to_nat b)%nat) by (intros; lia).
  apply H. lia.
Qed.

Lemma fill_short s :
  shortRegime s ->
  match bufio.fill s with
  | inl s' => bufio.Err s' = None /\ unconsumed s = bufio.pending s
              /\ bufio.err s <> None
  | inr s' => shortRegime s' /\ unconsumed s' = unconsumed s /\ bufio.rd s' = []
  end.
Proof.
  intros [Hok Hreg]. pose proof sizes_positive as [Hs Hm].
  pose proof startBufSize_lt_Max as Hlt.
  destruct (bufio.fill s) as [s'|s'] eqn:Hfill.
  - destruct Hok as [Hsz Herr].
    unfold bufio.fill in Hfill. destruct (bufio.err s) as [e|] eqn:He.
    + destruct Herr as [|[Heof Hrd]]; [discriminate|].
      inversion Heof; subst e. inversion Hfill; subst s'.
      unfold bufio.Err, unconsumed. simpl. rewrite Hrd, app_nil_r.
      split; [reflexivity|]. split; [reflexivity|discriminate].
    + exfalso. specialize (Hreg eq_refl).
      destruct (_ =? _)%nat; [|destruct (bufio.rd s); discriminate].
      destruct (bufio.MaxScanTokenSize <=? bufio.bufLen s)%nat eqn:Hmax;
        [|destruct (bufio.rd s); discriminate].
      apply Nat.leb_le in Hmax.
      destruct Hreg as [[Hb _]|[Hb _]]; rewrite Hb in Hmax; lia.
  - destruct (fill_inr s s' Hok Hfill) as (Hok' & Hrest & He & Hcase).
    specialize (Hreg He).
    assert (Hrd : bufio.rd s' = [] /\ (bufio.err s' = None ->
                    bufio.bufLen s' = bufio.startBufSize)).
    { destruct Hreg as [[Hb Hrd]|(Hb & Hst & Hp & Hlen)].
      - destruct Hcase as [[_ He']|[_ Hl]]; [|rewrite Hrd in Hl; simpl in Hl; lia].
        split; [|congruence].
        unfold bufio.fill in Hfill. rewrite He, Hrd in Hfill.
        destruct (_ =? _)%nat; [destruct (_ <=? _)%nat; [discriminate|]|];
          inversion Hfill; reflexivity.
      - unfold bufio.fill in Hfill. rewrite He, Hb, Hst, Hp in Hfill.
        cbn [List.length Nat.add Nat.ltb Nat.leb andb Nat.eqb Nat.mul] in Hfill.
        destruct (bufio.MaxScanTokenSize <=? 0)%nat eqn:Hmax;
          [apply Nat.leb_le in Hmax; lia|].
        rewrite Nat.min_l in Hfill by lia.
        destruct (bufio.rd s) as [|c rd] eqn:Hrd.
        + inversion Hfill; subst s'. simpl. split; [reflexivity|discriminate].
        + rewrite Nat.sub_0_r, Nat.min_l in Hfill by exact Hlen.
          inversion Hfill; subst s'. simpl. rewrite drop_all. auto. }
    destruct Hrd as [Hrd Hbuf]. split; [|auto].
    split; [exact Hok'|]. intros He'. left. auto.
Qed.

Lemma Scan_short p fuel :
  forall s res,
    shortRegime s -> bufio.Scan (split p) fuel s = Some res -> shortScanSpec p s res.
Proof.
  induction fuel as [|fuel IH]; intros s res Hreg Hscan; [discriminate|].
  cbn [bufio.Scan] in Hscan.
  set (atEOF := bool_decide (is_Some (bufio.err s))) in *.
  pose proof (fill_short s Hreg) as Hfill.
  assert (Hmore : forall res0,
    (atEOF = true -> bufio.pending s = []) ->
    match bufio.fill s with
    | inl s' => Some (s', None)
    | inr s' => bufio.Scan (split p) fuel s'
    end = Some res0 -> shortScanSpec p s res0).
  { intros res0 Hempty H0.
    destruct (bufio.fill s) as [s'|s'].
    - destruct Hfill as (Herr & Hun & He). inversion H0; subst. simpl. left.
      split; [exact Herr|]. rewrite Hun. apply Hempty.
      subst atEOF. apply bool_decide_eq_true_2.
      destruct (bufio.err s); [eauto|congruence].
    - destruct Hfill as (Hreg' & Hun & _).
      specialize (IH s' res0 Hreg' H0).
      unfold shortScanSpec in *. destruct res0 as [s2 [t|]]; now rewrite <- Hun. }
  destruct ((0 <? List.length (bufio.pending s))%nat || atEOF) eqn:Hcond.
  2:{ apply orb_false_iff in Hcond as [_ Hcond]. apply Hmore; [|exact Hscan].
      rewrite Hcond. discriminate. }
  destruct Hreg as [Hok Hshape].
  assert (Hrd : bufio.rd s = []).
  { destruct (bufio.err s) eqn:He.
    - destruct Hok as [_ [|[_ Hrd]]]; [congruence|exact Hrd].
    - destruct (Hshape eq_refl) as [[_ Hrd]|(_ & _ & Hp & _)]; [exact Hrd|].
      subst atEOF. rewrite ?He, Hp in Hcond. simpl in Hcond.
      discriminate. }
  assert (Hun : unconsumed s = bufio.pending s).
  { unfold unconsumed. now rewrite Hrd, app_nil_r. }
  destruct (split p (bufio.pending s) atEOF) as [sr|] eqn:Hsplit; [|discriminate].
  pose proof (split_sound _ _ _ _ Hsplit) as Hsound.
  pose proof (split_end _ _ _ _ Hsplit) as Hend.
  destruct sr as [n tok| |e]; simpl in Hsound, Hend.
  - destruct Hsound as (Hn & _ & _ & _).
    destruct (List.length (bufio.pending s) <? n)%nat eqn:Hadv;
      [apply Nat.ltb_lt in Hadv; lia|].
    inversion Hscan; subst res. clear Hscan. simpl. split.
    + destruct Hok as [Hsz Herr]. split; [split|];
        cbn [bufio.rd bufio.bufLen bufio.start bufio.pending bufio.err].
      * rewrite length_drop. lia.
      * exact Herr.
      * intros He. left. destruct (Hshape He) as [[Hb _]|(_ & _ & Hp & _)]; [auto|].
        rewrite Hp in Hn. simpl in Hn. lia.
    + exists n. rewrite Hun. unfold unconsumed.
      cbn [bufio.rd bufio.bufLen bufio.start bufio.pending bufio.err].
      rewrite Hrd, app_nil_r. auto.
  - apply Hmore; [|exact Hscan].
    intros HatEOF. destruct Hsound as [_ [Hf|He]]; congruence.
  - inversion Hscan; subst. simpl. right. split.
    + rewrite setErr_Err; [reflexivity|exact Hok|discriminate].
    + rewrite Hun. exact Hend.
Qed.

Lemma parseLoop_short p fuel :
  forall s rootPath s' rootPath',
    shortRegime s ->
    parseLoop fuel p s rootPath = Some (s', rootPath') ->
    (bufio.Err s' = None /\ lastOk (unconsumed s))
    \/ (bufio.Err s' = Some (bufio.SplitError (IllegalSyntax p))
        /\ (badStart p = false -> ~ legalRest (unconsumed s))).
Proof.
  induction fuel as [|fuel IH]; intros s rootPath s' rootPath' Hreg Hloop;
    [discriminate|].
  cbn [parseLoop] in Hloop.
  destruct (bufio.Scan (split p) _ s) as [[s1 tok]|] eqn:Hscan; [|discriminate].
  apply Scan_short in Hscan; [|exact Hreg].
  destruct tok as [t|]; simpl in Hscan.
  - destruct Hscan as (Hreg1 & n & Hn & Hun & Hlast).
    destruct (IH _ _ _ _ Hreg1 Hloop) as [[Herr Hok]|[Herr Hbad]].
    + left. split; [exact Herr|].
      destruct (decide (n = List.length (unconsumed s))) as [Heq|Hne]; [auto|].
      apply (lastOk_drop _ n); [lia|]. now rewrite <- Hun.
    + right. split; [exact Herr|]. intros Hstart Hlegal.
      apply (Hbad Hstart). rewrite Hun. now apply legalRest_drop.
  - inversion Hloop; subst. destruct Hscan as [[Herr Hnil]|[Herr Hbad]].
    + left. split; [exact Herr|]. rewrite Hnil. intros c [=].
    + right. auto.
Qed.

Lemma shortRegime_createPathScanner p :
  (String.length p <= bufio.startBufSize)%nat -> shortRegime (createPathScanner p).
Proof.
  intros Hlen. split; [apply scannerOk_createPathScanner|].
  intros _. right. simpl. rewrite length_list_ascii_of_string. auto.
Qed.

(** ** Tokens *)

Lemma nameLen_spec (l : list ascii) :
  (nameLen l <= List.length l)%nat
  /\ (forall k c, (k < nameLen l)%nat -> l !! k = Some c -> isBoundary c = false)
  /\ (forall c, l !! nameLen l = Some c -> isBoundary c = true).
Proof.
  induction l as [|c0 l (Hlen & Hbefore & Hat)]; simpl.
  - split; [lia|]. split; intros; [lia|discriminate].
  - destruct (isBoundary c0) eqn:Hb.
    + split; [lia|]. split; [intros; lia|]. intros c [= <-]. exact Hb.
    + split; [lia|]. split.
      * intros [|k] c Hk Hc; [inversion Hc; subst; exact Hb|].
        apply (Hbefore k); [lia|exact Hc].
      * intros c Hc. now apply Hat.
Qed.

Lemma tokenLen_spec c0 (l : list ascii) :
  byteval c0 <> dot ->
  let n := tokenLen (c0 :: l) in
  (1 <= n <= S (List.length l))%nat
  /\ (forall k c, (1 <= k < n)%nat -> (c0 :: l) !! k = Some c -> isBoundary c = false)
  /\ (forall c, (c0 :: l) !! n = Some c -> isBoundary c = true).
Proof.
  intros Hc0. simpl. apply Z.eqb_neq in Hc0. rewrite Hc0.
  destruct (nameLen_spec l) as (Hlen & Hbefore & Hat).
  split; [lia|]. split.
  - intros [|k] c Hk Hc; [lia|]. apply (Hbefore k); [lia|exact Hc].
  - intros c Hc. now apply Hat.
Qed.

Lemma rune_is_byte (data : list ascii) i c r w :
  data !! i = Some c -> DecodeRune (drop i data) = (r, w) ->
  (r =? dot) = (byteval c =? dot) /\ (r =? lbracket) = (byteval c =? lbracket).
Proof.
  intros Hc Hdec. rewrite (drop_S _ _ _ Hc) in Hdec.
  destruct (DecodeRune_cons c (drop (S i) data)) as (r' & w' & Hdec' & _ & Hlow & Hhigh).
  rewrite Hdec in Hdec'. inversion Hdec'; subst r' w'.
  destruct (Z.lt_ge_cases (byteval c) 128) as [Hlt|Hge].
  - destruct (Hlow Hlt) as [-> _]. auto.
  - destruct (Hhigh Hge) as [Hr _]. unfold dot, lbracket.
    destruct (Z.eqb_spec r 46), (Z.eqb_spec r 91), (Z.eqb_spec (byteval c) 46),
      (Z.eqb_spec (byteval c) 91); try lia; auto.
Qed.

Lemma rune_inside (data : list ascii) i c r w k a :
  data !! i = Some c -> DecodeRune (drop i data) = (r, w) ->
  (i < k < i + w)%nat -> data !! k = Some a -> isBoundary a = false.
Proof.
  intros Hc Hdec Hk Ha. rewrite (drop_S _ _ _ Hc) in Hdec.
  destruct (DecodeRune_cons c (drop (S i) data)) as (r' & w' & Hdec' & _ & Hlow & Hhigh).
  rewrite Hdec in Hdec'. inversion Hdec'; subst r' w'.
  destruct (Z.lt_ge_cases (byteval c) 128) as [Hlt|Hge];
    [destruct (Hlow Hlt); lia|].
  destruct (Hhigh Hge) as [_ Hcont].
  specialize (Hcont (k - i)%nat ltac:(lia)).
  rewrite <- (drop_S _ _ _ Hc), byteAt_drop in Hcont.
  replace (i + (k - i))%nat with k in Hcont by lia.
  rewrite (byteAt_lookup _ _ _ Ha) in Hcont.
  unfold isBoundary, dot, lbracket.
  destruct (Z.eqb_spec (byteval a) 46), (Z.eqb_spec (byteval a) 91); try lia; auto.
Qed.

Lemma splitLoop_token fuel path c0 (l : list ascii) :
  forall i exit,
    (i < tokenLen (c0 :: l))%nat ->
    splitLoop fuel path (c0 :: l) i = Some exit ->
    match exit with
    | Return (bufio.Token n _) => n = tokenLen (c0 :: l)
    | Return _ => True
    | Fallthrough => tokenLen (c0 :: l) = S (List.length l)
    end.
Proof.
  set (data := c0 :: l).
  assert (Hbound : (tokenLen data <= List.length data)%nat).
  { subst data. simpl. destruct (byteval c0 =? dot); [lia|].
    destruct (nameLen_spec l) as [H _]. lia. }
  induction fuel as [|fuel IH]; intros i exit Hinv Hloop.
  - cbn [splitLoop] in Hloop.
    destruct (i <? List.length data)%nat eqn:Hi; [discriminate|].
    apply Nat.ltb_ge in Hi. lia.
  - cbn [splitLoop] in Hloop.
    destruct (i <? List.length data)%nat eqn:Hi; [|apply Nat.ltb_ge in Hi; lia].
    apply Nat.ltb_lt in Hi.
    destruct (lookup_lt_is_Some_2 data i Hi) as [c Hc].
    destruct (DecodeRune (drop i data)) as [r w] eqn:Hdec.
    destruct (rune_pairs data i c r w Hc Hdec) as (Hw & Hlen & _ & _).
    destruct (rune_is_byte data i c r w Hc Hdec) as [Hrdot Hrlb].
    destruct (Z.eqb_spec (byteval c0) dot) as [Hdot|Hdot].
    + (* the data begins with a dot: the token is that dot *)
      assert (Htl : tokenLen data = 1%nat).
      { subst data. simpl. apply Z.eqb_eq in Hdot. now rewrite Hdot. }
      assert (i = 0)%nat by lia. subst i.
      simpl in Hc. inversion Hc; subst c.
      assert (Hr : (r =? dot) = true) by (rewrite Hrdot; now apply Z.eqb_eq).
      assert (w = 1%nat).
      { destruct (DecodeRune_cons c0 l) as (r' & w' & Hdec' & _ & Hlow & _).
        subst data. rewrite drop_0 in Hdec. rewrite Hdec in Hdec'.
        inversion Hdec'; subst. apply Hlow. unfold dot in Hdot. lia. }
      subst w. rewrite Hr in Hloop. cbn [andb orb Nat.eqb] in Hloop.
      destruct (0 + 1 <? List.length data)%nat.
      * destruct (DecodeRune (drop (0 + 1) data)) as [next w'].
        destruct (isValidSyntax r next); inversion Hloop; subst; [exact I|lia].
      * inversion Hloop; subst. exact I.
    + (* the token runs up to the next boundary byte *)
      destruct (tokenLen_spec c0 l Hdot) as (Hn & Hbefore & Hat).
      fold data in Hn, Hbefore, Hat.
      assert (Hreach : (i + w <= tokenLen data)%nat).
      { destruct (decide (i + w <= tokenLen data)%nat) as [|Hgt]; [assumption|].
        destruct (lookup_lt_is_Some_2 data (tokenLen data)) as [a Ha]; [lia|].
        pose proof (Hat a Ha) as Hb.
        rewrite (rune_inside data i c r w (tokenLen data) a Hc Hdec) in Hb;
          [discriminate|lia|exact Ha]. }
      assert (Hfirst : (r =? dot) && (i =? 0)%nat = false).
      { destruct (Nat.eqb_spec i 0) as [->|]; [|apply andb_false_r].
        simpl in Hc. inversion Hc; subst c. rewrite Hrdot.
        apply Z.eqb_neq in Hdot. now rewrite Hdot. }
      destruct (i + w <? List.length data)%nat eqn:Hnext.
      * apply Nat.ltb_lt in Hnext.
        destruct (lookup_lt_is_Some_2 data (i + w) Hnext) as [c' Hc'].
        destruct (DecodeRune (drop (i + w) data)) as [next w'] eqn:Hdec'.
        destruct (rune_is_byte data (i + w) c' next w' Hc' Hdec') as [Hndot Hnlb].
        destruct (isValidSyntax r next); [inversion Hloop; subst; exact I|].
        rewrite Hfirst in Hloop.
        assert (Hb : (next =? dot) || (next =? lbracket) = isBoundary c').
        { unfold isBoundary. now rewrite Hndot, Hnlb. }
        rewrite Hb in Hloop. destruct (isBoundary c') eqn:Hbc.
        -- inversion Hloop; subst.
           destruct (decide (i + w = tokenLen data)%nat) as [|Hne]; [assumption|].
           rewrite (Hbefore (i + w)%nat c') in Hbc; [discriminate|lia|exact Hc'].
        -- apply (IH (i + w)%nat exit); [|exact Hloop].
           destruct (decide (i + w = tokenLen data)%nat) as [Heq|Hne]; [|lia].
           rewrite Heq in Hc'. rewrite (Hat c' Hc') in Hbc. discriminate.
      * apply Nat.ltb_ge in Hnext.
        destruct ((r =? dot) || (r =? lbracket)); [inversion Hloop; subst; exact I|].
        assert (Hfall : splitLoop fuel path data (i + w) = Some Fallthrough).
        { destruct fuel; cbn [splitLoop];
            (destruct (i + w <? List.length data)%nat eqn:E';
              [apply Nat.ltb_lt in E'; lia|]); reflexivity. }
        rewrite Hfall in Hloop. inversion Hloop; subst.
        subst data. simpl in *. lia.
Qed.

Lemma split_token p data atEOF n tok :
  split p data atEOF = Some (bufio.Token n tok) ->
  n = tokenLen data /\ tok = take n data.
Proof.
  intros Hsplit. pose proof (split_sound _ _ _ _ Hsplit) as (Hn & Htok & _).
  split; [|exact Htok].
  unfold split in Hsplit. destruct (_ || _); [discriminate|].
  destruct data as [|c0 l]; [simpl in Hn; lia|].
  destruct (splitLoop _ _ _ _) as [exit|] eqn:Hloop; [|discriminate].
  apply splitLoop_token in Hloop.
  - destruct exit as [res|].
    + inversion Hsplit; subst res. exact Hloop.
    + destruct (atEOF && _); inversion Hsplit; subst. now rewrite Hloop.
  - simpl. destruct (byteval c0 =? dot); lia.
Qed.

Lemma Scan_short_token p fuel :
  forall s s' t,
    shortRegime s -> bufio.Scan (split p) fuel s = Some (s', Some t) ->
    t = take (tokenLen (unconsumed s)) (unconsumed s)
    /\ unconsumed s' = drop (tokenLen (unconsumed s)) (unconsumed s).
Proof.
  induction fuel as [|fuel IH]; intros s s' t Hreg Hscan; [discriminate|].
  cbn [bufio.Scan] in Hscan.
  set (atEOF := bool_decide (is_Some (bufio.err s))) in *.
  pose proof (fill_short s Hreg) as Hfill.
  assert (Hmore :
    match bufio.fill s with
    | inl s1 => Some (s1, None)
    | inr s1 => bufio.Scan (split p) fuel s1
    end = Some (s', Some t) ->
    t = take (tokenLen (unconsumed s)) (unconsumed s)
    /\ unconsumed s' = drop (tokenLen (unconsumed s)) (unconsumed s)).
  { intros H0. destruct (bufio.fill s) as [s1|s1]; [discriminate|].
    destruct Hfill as (Hreg' & Hun & _). rewrite <- Hun. now apply IH. }
  destruct ((0 <? List.length (bufio.pending s))%nat || atEOF) eqn:Hcond;
    [|exact (Hmore Hscan)].
  destruct Hreg as [Hok Hshape].
  assert (Hrd : bufio.rd s = []).
  { destruct (bufio.err s) eqn:He.
    - destruct Hok as [_ [|[_ Hrd]]]; [congruence|exact Hrd].
    - destruct (Hshape eq_refl) as [[_ Hrd]|(_ & _ & Hp & _)]; [exact Hrd|].
      subst atEOF. rewrite ?He, Hp in Hcond. simpl in Hcond. discriminate. }
  assert (Hun : unconsumed s = bufio.pending s).
  { unfold unconsumed. now rewrite Hrd, app_nil_r. }
  destruct (split p (bufio.pending s) atEOF) as [sr|] eqn:Hsplit; [|discriminate].
  destruct sr as [n tok| |e]; [|exact (Hmore Hscan)|discriminate].
  destruct (split_token _ _ _ _ _ Hsplit) as [Hn Htok].
  destruct (List.length (bufio.pending s) <? n)%nat; [discriminate Hscan|].
  inversion Hscan; subst. rewrite Hun. split; [reflexivity|].
  unfold unconsumed. cbn [bufio.rd bufio.pending]. now rewrite Hrd, app_nil_r.
Qed.

Lemma parseLoop_tokens p fuel :
  forall s rootPath s' rootPath',
    shortRegime s ->
    parseLoop fuel p s rootPath = Some (s', rootPath') ->
    bufio.Err s' = None ->
    exists ts, Tokens (unconsumed s) ts /\ rootPath' = buildFrom rootPath ts.
Proof.
  induction fuel as [|fuel IH]; intros s rootPath s' rootPath' Hreg Hloop Herr;
    [discriminate|].
  cbn [parseLoop] in Hloop.
  destruct (bufio.Scan (split p) _ s) as [[s1 tok]|] eqn:Hscan; [|discriminate].
  pose proof (Scan_short _ _ _ _ Hreg Hscan) as Hshort.
  destruct tok as [t|]; simpl in Hshort.
  - destruct (Scan_short_token _ _ _ _ _ Hreg Hscan) as [-> Hun].
    destruct Hshort as (Hreg1 & n & Hn & _ & _).
    destruct (IH _ _ _ _ Hreg1 Hloop Herr) as (ts & Hts & ->).
    exists (take (tokenLen (unconsumed s)) (unconsumed s) :: ts).
    split; [|reflexivity].
    constructor.
    + intros Hnil. rewrite Hnil in Hn. simpl in Hn. lia.
    + now rewrite <- Hun.
  - inversion Hloop; subst. destruct Hshort as [[_ Hnil]|[Herr' _]]; [|congruence].
    exists []. rewrite Hnil. split; [constructor|reflexivity].
Qed.

Lemma Tokens_functional l ts :
  Tokens l ts -> forall ts', Tokens l ts' -> ts = ts'.
Proof.
  induction 1 as [|l ts Hne _ IH]; intros ts' H'; inversion H'; subst;
    try congruence.
  f_equal. now apply IH.
Qed.

(** The two outcomes of [Parse] on a path that fits the initial buffer. *)
Lemma Parse_short_cases p :
  (String.length p <= bufio.startBufSize)%nat ->
  (exists ts, Tokens (list_ascii_of_string p) ts
              /\ Parse p = Some (Ok (buildPath ts)) /\ legalSyntax p)
  \/ (Parse p = Some (Err (bufio.SplitError (IllegalSyntax p))) /\ ~ legalSyntax p).
Proof.
  intros Hlen. destruct (Parse_total p) as [res Hres].
  pose proof Hres as Hres'. unfold Parse, ParseN in Hres'.
  destruct (parseLoop _ _ _ _) as [[s root]|] eqn:Hloop; [|discriminate].
  pose proof (shortRegime_createPathScanner p Hlen) as Hreg.
  pose proof (parseLoop_short _ _ _ _ _ _ Hreg Hloop) as Hshort.
  rewrite unconsumed_createPathScanner in Hshort.
  destruct Hshort as [[Herr Hok]|[Herr Hbad]].
  - destruct (parseLoop_tokens _ _ _ _ _ _ Hreg Hloop Herr) as (ts & Hts & ->).
    rewrite Herr in Hres'. inversion Hres'; subst res.
    left. exists ts. split; [exact Hts|]. split; [exact Hres|].
    destruct (badStart p) eqn:Hstart.
    { destruct (Parse_rejects_badStart p Hstart) as [e He]. congruence. }
    split; [exact Hstart|]. split; [|exact Hok].
    intros k a b Ha Hb. destruct (illegalPair a b) eqn:Hill; [|reflexivity].
    destruct (Parse_rejects_pair p) as [e He]; [|congruence].
    exists k, a, b. auto.
  - rewrite Herr in Hres'. inversion Hres'; subst res.
    right. split; [exact Hres|]. intros [Hstart Hlegal]. now apply Hbad.
Qed.

(** X13.  For a path that fits the initial buffer, the chain that [Parse]
    returns is the chain built from the tokens of the path: a dot is a token,
    and every other token runs up to the next dot or opening bracket. *)
Theorem Parse_builds_from_tokens p path :
  (String.length p <= bufio.startBufSize)%nat ->
  Parse p = Some (Ok path) ->
  exists ts, Tokens (list_ascii_of_string p) ts /\ path = buildPath ts.
Proof.
  intros Hlen Hp.
  destruct (Parse_short_cases p Hlen) as [(ts & Hts & Hok & _)|[Herr _]]; [|congruence].
  exists ts. split; [exact Hts|congruence].
Qed.

(** X14.  For a path that fits the scanner's initial buffer, [Parse] succeeds
    exactly on legal syntax: the path is not empty, does not begin with a dot,
    has no adjacent bytes that fail the syntax check, and does not end with a
    dot or an opening bracket.  On every other such path it returns the
    error that carries the path. *)
Theorem Parse_short_path p :
  (String.length p <= bufio.startBufSize)%nat ->
  (legalSyntax p -> exists path, Parse p = Some (Ok path))
  /\ (~ legalSyntax p ->
      Parse p = Some (Err (bufio.SplitError (IllegalSyntax p)))).
Proof.
  intros Hlen.
  destruct (Parse_short_cases p Hlen) as [(ts & _ & Hp & Hl)|[Hp Hn]]; split;
    intros H; try contradiction; eauto.
Qed.

Lemma Parse_short_path_witness :
  (exists path, Parse "list[].x" = Some (Ok path))
  /\ Parse "list." = Some (Err (bufio.SplitError (IllegalSyntax "list."))).
Proof.
  assert (Hsize : forall p, (Z.of_nat (String.length p) <= 4096) ->
                    (String.length p <= bufio.startBufSize)%nat).
  { intros p H. unfold bufio.startBufSize. lia. }
  split.
  - apply (Parse_short_path "list[].x"); [apply Hsize; simpl; lia|].
    split; [reflexivity|]. split.
    + intros k a b Ha Hb.
      do 8 (destruct k as [|k]; [simpl in Ha, Hb; inversion Ha; inversion Hb; reflexivity|]).
      discriminate.
    + intros c [= <-]. split; discriminate.
  - apply (Parse_short_path "list."); [apply Hsize; simpl; lia|].
    intros [_ [_ Hlast]]. destruct (Hlast "."%char eq_refl) as [H _]. now apply H.
Defined.


Lemma Parse_builds_from_tokens_witness :
  exists ts, Tokens (list_ascii_of_string "list[].x") ts
             /\ MkPath (Some dotX) None "list" PathTypeArray = buildPath ts.
Proof.
  apply (Parse_builds_from_tokens "list[].x").
  - unfold bufio.startBufSize. simpl. lia.
  - vm_compute. reflexivity.
Defined.

(** ** Composition of paths *)

Lemma Parse_short_of_tokens p ts :
  (String.length p <= bufio.startBufSize)%nat ->
  legalSyntax p -> Tokens (list_ascii_of_string p) ts ->
  Parse p = Some (Ok (buildPath ts)).
Proof.
  intros Hlen Hlegal Hts.
  destruct (Parse_short_cases p Hlen) as [(ts' & Hts' & Hp & _)|[_ Hn]];
    [|contradiction].
  now rewrite (Tokens_functional _ _ Hts _ Hts').
Qed.

Lemma list_ascii_of_string_app (a b : string) :
  list_ascii_of_string (a ++ b)%string = list_ascii_of_string a ++ list_ascii_of_string b.
Proof. induction a as [|c a IH]; simpl; [reflexivity|now rewrite IH]. Qed.

Lemma length_string_app (a b : string) :
  String.length (a ++ b)%string = (String.length a + String.length b)%nat.
Proof.
  rewrite <- !length_list_ascii_of_string, list_ascii_of_string_app.
  apply length_app.
Qed.

Ltac pair_cases :=
  unfold illegalPair, isValidSyntax, isBoundary, plainByte, dot, lbracket, rbracket in *;
  repeat match goal with
         | |- context [?a =? ?b] => destruct (Z.eqb_spec a b)
         end; simpl; try reflexivity; try lia.

Lemma pair_plain_plain a b : plainByte a -> plainByte b -> illegalPair a b = false.
Proof. intros Ha Hb. pair_cases. Qed.

Lemma pair_plain_boundary a b : plainByte a -> isBoundary b = true -> illegalPair a b = false.
Proof. intros Ha Hb. revert Hb. pair_cases. Qed.

Lemma pair_dot_plain b : plainByte b -> illegalPair "."%char b = false.
Proof. intros Hb. change (byteval "."%char) with 46 in *. unfold illegalPair. change (byteval "."%char) with 46. pair_cases. Qed.

Lemma legalRest_cons2 a b (l : list ascii) :
  illegalPair a b = false -> legalRest (b :: l) -> legalRest (a :: b :: l).
Proof.
  intros Hab [Hpairs Hlast]. split.
  - intros [|k] x y Hx Hy; simpl in Hx, Hy.
    + now inversion Hx; inversion Hy; subst.
    + exact (Hpairs k x y Hx Hy).
  - intros c Hc. apply Hlast. exact Hc.
Qed.

Lemma legalRest_single a :
  byteval a <> dot -> byteval a <> lbracket -> legalRest [a].
Proof.
  intros Hd Hb. split.
  - intros k x y Hx Hy. destruct k; discriminate.
  - intros c [= <-]. auto.
Qed.

Lemma legalRest_name_app (name rest : list ascii) :
  name <> [] -> Forall plainByte name ->
  (rest = [] \/ exists c r, rest = c :: r /\ isBoundary c = true /\ legalRest rest) ->
  legalRest (name ++ rest).
Proof.
  intros Hne Hplain Hrest.
  induction name as [|a name IH]; [congruence|].
  inversion Hplain as [|? ? Ha Hname]; subst.
  destruct name as [|a' name].
  - destruct Hrest as [->|(c & r & -> & Hc & Hr)]; simpl.
    + apply legalRest_single; apply Ha.
    + apply legalRest_cons2; [now apply pair_plain_boundary|exact Hr].
  - simpl. apply legalRest_cons2.
    + inversion Hname; subst. now apply pair_plain_plain.
    + apply IH; [discriminate|exact Hname].
Qed.

Lemma plainByte_not_boundary c : plainByte c -> isBoundary c = false.
Proof. intros H. pair_cases. Qed.

Lemma nameLen_app (name rest : list ascii) :
  Forall plainByte name -> nameLen rest = 0%nat ->
  nameLen (name ++ rest) = List.length name.
Proof.
  intros Hplain Hrest. induction Hplain as [|c name Hc _ IH]; simpl; [exact Hrest|].
  now rewrite (plainByte_not_boundary c Hc), IH.
Qed.

Lemma Tokens_name (name rest : list ascii) ts :
  name <> [] -> Forall plainByte name -> nameLen rest = 0%nat ->
  Tokens rest ts -> Tokens (name ++ rest) (name :: ts).
Proof.
  intros Hne Hplain Hrest Hts.
  assert (Hlen : tokenLen (name ++ rest) = List.length name).
  { destruct name as [|a name]; [congruence|].
    inversion Hplain as [|? ? Ha Hname]; subst. simpl.
    destruct (Z.eqb_spec (byteval a) dot) as [He|_]; [now destruct Ha|].
    now rewrite nameLen_app. }
  pose proof (Tokens_cons (name ++ rest) ts) as H.
  rewrite Hlen, take_app_length, drop_app_length in H.
  apply H; [|exact Hts]. destruct name; [congruence|discriminate].
Qed.

Lemma Tokens_dot (rest : list ascii) ts :
  Tokens rest ts -> Tokens ("."%char :: rest) (["."%char] :: ts).
Proof. intros Hts. now apply (Tokens_cons ("."%char :: rest) ts). Qed.

Lemma Tokens_brackets (rest : list ascii) ts :
  nameLen rest = 0%nat -> Tokens rest ts ->
  Tokens ("["%char :: "]"%char :: rest) (["["%char; "]"%char] :: ts).
Proof.
  intros Hrest Hts.
  pose proof (Tokens_cons ("["%char :: "]"%char :: rest) ts) as H.
  change (tokenLen ("["%char :: "]"%char :: rest)) with (S (S (nameLen rest))) in H.
  rewrite Hrest in H. now apply H.
Qed.

Lemma plainName_bytes name :
  plainName name ->
  exists a l, list_ascii_of_string name = a :: l /\ plainByte a /\ Forall plainByte l.
Proof.
  intros [Hne Hplain]. destruct name as [|a name]; [congruence|].
  simpl in *. inversion Hplain; subst. eauto.
Qed.

Lemma plainName_token name path :
  plainName name ->
  parseToken (string_of_list_ascii (list_ascii_of_string name)) path
  = MkPath (Next path) (Index path) name (Type_ path).
Proof.
  intros Hname. rewrite string_of_list_ascii_of_string.
  destruct (plainName_bytes name Hname) as (a & l & Hbytes & Ha & _).
  destruct path as [nx idx nm ty]. unfold parseToken.
  destruct (String.eqb_spec name "[]") as [->|_].
  { simpl in Hbytes. inversion Hbytes; subst. destruct Ha as (_ & Ha & _). now destruct Ha. }
  destruct (String.eqb_spec name ".") as [->|_].
  { simpl in Hbytes. inversion Hbytes; subst. destruct Ha as (Ha & _). now destruct Ha. }
  reflexivity.
Qed.

Lemma buildFrom_name name ts :
  plainName name ->
  buildFrom (MkPath None None "" PathTypeElement) (list_ascii_of_string name :: ts)
  = buildFrom (MkPath None None name PathTypeElement) ts.
Proof.
  intros Hname. unfold buildFrom. cbn [fold_left setTail].
  now rewrite plainName_token.
Qed.

Lemma buildFrom_under nx idx name ty ts :
  buildFrom (MkPath (Some nx) idx name ty) ts = MkPath (Some (buildFrom nx ts)) idx name ty.
Proof.
  revert nx. induction ts as [|t ts IH]; intros nx; [reflexivity|].
  unfold buildFrom in *. simpl. apply IH.
Qed.

Lemma buildFrom_dot idx name ts :
  buildFrom (MkPath None idx name PathTypeElement) (["."%char] :: ts)
  = MkPath (Some (buildFrom (MkPath None None "" PathTypeElement) ts)) idx name
           PathTypeObject.
Proof.
  rewrite <- buildFrom_under. unfold buildFrom. cbn [fold_left]. reflexivity.
Qed.

Lemma buildFrom_brackets idx name :
  buildFrom (MkPath None idx name PathTypeElement) [["["%char; "]"%char]]
  = MkPath None idx name PathTypeArray.
Proof. reflexivity. Qed.

Lemma buildFrom_brackets_dot idx name ts :
  buildFrom (MkPath None idx name PathTypeElement)
            (["["%char; "]"%char] :: ["."%char] :: ts)
  = MkPath (Some (MkPath (Some (buildFrom (MkPath None None "" PathTypeElement) ts))
                         None "" PathTypeObject)) idx name PathTypeArray.
Proof.
  rewrite <- !buildFrom_under. unfold buildFrom. cbn [fold_left]. reflexivity.
Qed.

Lemma plainName_badStart name : plainName name -> forall q, badStart (name ++ q)%string = false.
Proof.
  intros Hname q. destruct (plainName_bytes name Hname) as (a & l & Hbytes & Ha & _).
  unfold badStart. rewrite list_ascii_of_string_app, Hbytes.
  destruct name as [|c name]; [discriminate|]. simpl.
  inversion Hbytes; subst. unfold byteAt. simpl.
  destruct Ha as [Ha _]. now apply Z.eqb_neq.
Qed.

Lemma plainStart q :
  badStart q = false -> bracketStart q = false ->
  exists c l, list_ascii_of_string q = c :: l /\ plainByte c.
Proof.
  unfold badStart, bracketStart. intros Hbad Hbr.
  destruct q as [|c q]; [discriminate|]. simpl in *.
  exists c, (list_ascii_of_string q). split; [reflexivity|].
  unfold byteAt in *. simpl in *.
  apply orb_false_iff in Hbr as [H1 H2].
  apply Z.eqb_neq in Hbad, H1, H2. now repeat split.
Qed.

(** X15.  A path that is one name (no dot, no bracket) and fits the initial
    buffer parses to one step of that name, of type element. *)
Theorem Parse_plain_name name :
  plainName name -> (String.length name <= bufio.startBufSize)%nat ->
  Parse name = Some (Ok (MkPath None None name PathTypeElement)).
Proof.
  intros Hname Hlen.
  destruct (plainName_bytes name Hname) as (a & l & Hbytes & Ha & Hl).
  assert (Hplain : Forall plainByte (list_ascii_of_string name)) by apply Hname.
  assert (Hne : list_ascii_of_string name <> []) by (rewrite Hbytes; discriminate).
  rewrite (Parse_short_of_tokens name [list_ascii_of_string name] Hlen).
  - unfold buildPath. now rewrite buildFrom_name.
  - split.
    + pose proof (plainName_badStart name Hname "") as Hb.
      replace (name ++ "")%string with name in Hb; [exact Hb|].
      clear. induction name as [|c name IH]; [reflexivity|].
      change (String c name = String c (name ++ "")%string). now f_equal.
    + rewrite <- (app_nil_r (list_ascii_of_string name)).
      apply legalRest_name_app; auto.
  - rewrite <- (app_nil_r (list_ascii_of_string name)) at 1.
    apply Tokens_name; auto. constructor.
Qed.

Lemma Parse_plain_name_witness :
  Parse "name" = Some (Ok (MkPath None None "name" PathTypeElement)).
Proof.
  apply (Parse_plain_name "name").
  - split; [discriminate|]. repeat constructor; discriminate.
  - unfold bufio.startBufSize. simpl. lia.
Defined.

(** X16.  A name followed by a dot and a path [q] that parses and does not
    begin with a bracket: the chain is an object step of that name whose
    successor is the chain of [q]. *)
Theorem Parse_object_step name q chain :
  plainName name -> bracketStart q = false ->
  (String.length (name ++ "." ++ q)%string <= bufio.startBufSize)%nat ->
  Parse q = Some (Ok chain) ->
  Parse (name ++ "." ++ q)%string
  = Some (Ok (MkPath (Some chain) None name PathTypeObject)).
Proof.
  intros Hname Hbr Hlen Hq.
  assert (Hlenq : (String.length q <= bufio.startBufSize)%nat).
  { rewrite !length_string_app in Hlen. lia. }
  destruct (Parse_short_cases q Hlenq) as [(ts & Hts & Hp & Hstart & Hlegal)|[Hp _]];
    [|congruence].
  assert (chain = buildPath ts) as -> by congruence.
  destruct (plainStart q Hstart Hbr) as (c & l & Hbytes & Hc).
  assert (Hplain : Forall plainByte (list_ascii_of_string name)) by apply Hname.
  destruct (plainName_bytes name Hname) as (a & l' & Hbytes' & _).
  assert (Hne : list_ascii_of_string name <> []) by (rewrite Hbytes'; discriminate).
  rewrite (Parse_short_of_tokens _ (list_ascii_of_string name :: ["."%char] :: ts) Hlen).
  - unfold buildPath. rewrite buildFrom_name by exact Hname.
    now rewrite buildFrom_dot.
  - split; [apply plainName_badStart, Hname|].
    rewrite !list_ascii_of_string_app. simpl.
    apply legalRest_name_app; auto. right.
    exists "."%char, (list_ascii_of_string q). split; [reflexivity|].
    split; [reflexivity|]. rewrite Hbytes in *.
    apply legalRest_cons2; [now apply pair_dot_plain|exact Hlegal].
  - rewrite !list_ascii_of_string_app. simpl.
    apply Tokens_name; auto. now apply Tokens_dot.
Qed.

Lemma Parse_object_step_witness :
  Parse "object.field"
  = Some (Ok (MkPath (Some (MkPath None None "field" PathTypeElement)) None
                     "object" PathTypeObject)).
Proof.
  apply (Parse_object_step "object" "field").
  - split; [discriminate|]. repeat constructor; discriminate.
  - reflexivity.
  - unfold bufio.startBufSize. simpl. lia.
  - vm_compute. reflexivity.
Defined.

(** X17.  A name followed by a pair of brackets: the chain is an array step of
    that name whose successor is an element step without a name.  When a dot
    and a path [q] that parses and does not begin with a bracket follow the
    brackets, the successor of the array step is an object step without a
    name, whose successor is the chain of [q]. *)
Theorem Parse_array_step name :
  plainName name ->
  ((String.length (name ++ "[]")%string <= bufio.startBufSize)%nat ->
   Parse (name ++ "[]")%string
   = Some (Ok (MkPath (Some (MkPath None None "" PathTypeElement)) None
                      name PathTypeArray)))
  /\ (forall q chain,
        bracketStart q = false ->
        (String.length (name ++ "[]." ++ q)%string <= bufio.startBufSize)%nat ->
        Parse q = Some (Ok chain) ->
        Parse (name ++ "[]." ++ q)%string
        = Some (Ok (MkPath (Some (MkPath (Some chain) None "" PathTypeObject)) None
                           name PathTypeArray))).
Proof.
  intros Hname.
  assert (Hplain : Forall plainByte (list_ascii_of_string name)) by apply Hname.
  destruct (plainName_bytes name Hname) as (a & l' & Hbytes' & _).
  assert (Hne : list_ascii_of_string name <> []) by (rewrite Hbytes'; discriminate).
  assert (Hclose : illegalPair "["%char "]"%char = false) by reflexivity.
  split.
  - intros Hlen.
    rewrite (Parse_short_of_tokens _ (list_ascii_of_string name :: ["["%char; "]"%char] :: [])
               Hlen).
    + unfold buildPath. rewrite buildFrom_name by exact Hname.
      now rewrite buildFrom_brackets.
    + split; [apply plainName_badStart, Hname|].
      rewrite !list_ascii_of_string_app. simpl.
      apply legalRest_name_app; auto. right.
      exists "["%char, ["]"%char]. split; [reflexivity|]. split; [reflexivity|].
      apply legalRest_cons2; [exact Hclose|].
      apply legalRest_single; discriminate.
    + rewrite !list_ascii_of_string_app. simpl.
      apply Tokens_name; auto. apply Tokens_brackets; [reflexivity|constructor].
  - intros q chain Hbr Hlen Hq.
    assert (Hlenq : (String.length q <= bufio.startBufSize)%nat).
    { rewrite !length_string_app in Hlen. lia. }
    destruct (Parse_short_cases q Hlenq) as [(ts & Hts & Hp & Hstart & Hlegal)|[Hp _]];
      [|congruence].
    assert (chain = buildPath ts) as -> by congruence.
    destruct (plainStart q Hstart Hbr) as (c & l & Hbytes & Hc).
    rewrite (Parse_short_of_tokens _
               (list_ascii_of_string name :: ["["%char; "]"%char] :: ["."%char] :: ts) Hlen).
    + unfold buildPath. rewrite buildFrom_name by exact Hname.
      now rewrite buildFrom_brackets_dot.
    + split; [apply plainName_badStart, Hname|].
      rewrite !list_ascii_of_string_app. simpl.
      apply legalRest_name_app; auto. right.
      exists "["%char, ("]"%char :: "."%char :: list_ascii_of_string q).
      split; [reflexivity|]. split; [reflexivity|].
      apply legalRest_cons2; [exact Hclose|].
      apply legalRest_cons2; [reflexivity|]. rewrite Hbytes in *.
      apply legalRest_cons2; [now apply pair_dot_plain|exact Hlegal].
    + rewrite !list_ascii_of_string_app. simpl.
      apply Tokens_name; auto.
      apply Tokens_brackets; [reflexivity|]. now apply Tokens_dot.
Qed.

Lemma Parse_array_step_witness :
  Parse "tags[]"
  = Some (Ok (MkPath (Some (MkPath None None "" PathTypeElement)) None
                     "tags" PathTypeArray))
  /\ Parse "users[].name"
     = Some (Ok (MkPath (Some (MkPath (Some (MkPath None None "name" PathTypeElement))
                                      None "" PathTypeObject)) None
                        "users" PathTypeArray)).
Proof.
  assert (Htags : plainName "tags").
  { split; [discriminate|]. repeat constructor; discriminate. }
  assert (Husers : plainName "users").
  { split; [discriminate|]. repeat constructor; discriminate. }
  assert (Hsize : forall p, (Z.of_nat (String.length p) <= 4096) ->
                    (String.length p <= bufio.startBufSize)%nat).
  { intros p H. unfold bufio.startBufSize. lia. }
  split.
  - destruct (Parse_array_step "tags" Htags) as [Hleaf _].
    apply Hleaf, Hsize. simpl. lia.
  - destruct (Parse_array_step "users" Husers) as [_ Hstep].
    apply (Hstep "name").
    + reflexivity.
    + apply Hsize. simpl. lia.
    + vm_compute. reflexivity.
Defined.

(** ** Composition of date rules *)

Section DateBetween.

Variable time_Parse : string -> string -> option Time.
Variable requireParametersCount : string -> list string -> nat -> outcome unit.

(** X18.  [date_between] is the conjunction of [after_equal] on its first
    parameter and [before_equal] on its second: when the three parameter
    checks return and the two one-sided rules return a verdict, the
    two-sided rule returns the conjunction of the two verdicts; and when
    the two-sided rule accepts, so do the two one-sided rules. *)
Theorem date_between_is_conjunction field value a b form :
  requireParametersCount "date_between" [a; b] 2%nat = Returns tt ->
  requireParametersCount "after_equal" [a] 1%nat = Returns tt ->
  requireParametersCount "before_equal" [b] 1%nat = Returns tt ->
  (forall lo hi,
     validateAfterEqual time_Parse requireParametersCount field value [a] form = Returns lo ->
     validateBeforeEqual time_Parse requireParametersCount field value [b] form = Returns hi ->
     validateDateBetween time_Parse requireParametersCount field value [a; b] form
     = Returns (lo && hi))
  /\ (validateDateBetween time_Parse requireParametersCount field value [a; b] form
      = Returns true ->
      validateAfterEqual time_Parse requireParametersCount field value [a] form
      = Returns true
      /\ validateBeforeEqual time_Parse requireParametersCount field value [b] form
         = Returns true).
Proof.
  intros Hbetween Hafter Hbefore.
  unfold validateDateBetween, validateAfterEqual, validateBeforeEqual.
  rewrite Hbetween, Hafter, Hbefore.
  unfold mbind, outcome_bind, getDates.
  destruct value as [| | | |d| |];
    try (split; [intros lo hi [= <-] [= <-]; reflexivity|discriminate]).
  cbn [getDatesLoop]. unfold parseDate.
  split.
  - intros lo hi.
    destruct (form !! a) as [va|]; [destruct va as [| | |sa|da| |]|];
      repeat match goal with
             | |- context [time_Parse ?l ?s] => destruct (time_Parse l s)
             end;
      destruct (form !! b) as [vb|]; try destruct vb as [| | |sb|db| |];
      repeat match goal with
             | |- context [time_Parse ?l ?s] => destruct (time_Parse l s)
             end;
      simpl; intros Hlo Hhi;
      try discriminate;
      inversion Hlo; inversion Hhi; subst;
      try reflexivity;
      try (now destruct (After _ _ || Equal _ _));
      try (now rewrite andb_false_r).
  - destruct (form !! a) as [va|]; [destruct va as [| | |sa|da| |]|];
      repeat match goal with
             | |- context [time_Parse ?l ?s] => destruct (time_Parse l s)
             end;
      destruct (form !! b) as [vb|]; try destruct vb as [| | |sb|db| |];
      repeat match goal with
             | |- context [time_Parse ?l ?s] => destruct (time_Parse l s)
             end;
      simpl; try discriminate;
      try (destruct (After _ _ || Equal _ _); [|discriminate];
           intros [= ->]; split; reflexivity).
Qed.

End DateBetween.

Lemma date_between_is_conjunction_witness :
  validateDateBetween time.Parse requireExactly "start" (VTime newYear2023)
                      ["2023-01-01T00:00:00"; "end"] {["end" := VStr "2023-06-01"]}
  = Returns true.
Proof.
  destruct (date_between_is_conjunction time.Parse requireExactly "start"
              (VTime newYear2023) "2023-01-01T00:00:00" "end"
              {["end" := VStr "2023-06-01"]}) as [Hconj _];
    [reflexivity|reflexivity|reflexivity|].
  apply (Hconj true true); vm_compute; reflexivity.
Defined.
